(** * lca_algebraic: base utilities

    A shallow embedding of [lca_algebraic/base_utils.py] and of the
    project helpers of [lca_algebraic/__init__.py], with the properties of
    [SymDict], [TabbedDataframe.to_excel], [interpolate], [Max], [Min]
    and [initProject].

    Python dicts are finite maps; the key [None] of a [SymDict] is the
    key [None] of type [option K], every other key is [Some k].  The
    values held by a [SymDict] are duck-typed in the source: what the
    class needs of them are the operators [+], [*], [/], the integer [0]
    and attribute lookup.  Each is an operational class below, and the
    operators are taken as total functions of the value type. *)

From Stdlib Require Import QArith Qabs Qminmax Qcanon Lqa.
From stdpp Require Import gmap strings list fin_maps.

Local Open Scope string_scope.
Local Open Scope list_scope.

(** ** The operators a value type offers *)

Class PyAdd (V : Type) := py_add : V → V → V.
Class PyMul (V : Type) := py_mul : V → V → V.
Class PyTrueDiv (V : Type) := py_truediv : V → V → V.
(** The Python integer [0], as a value. *)
Class PyZero (V : Type) := py_zero : V.
(** [getattr(val, name)]: the bound method, or [None] when
    [hasattr(val, name)] is false.  [Args] stands for the positional and
    keyword arguments a deferred call passes on. *)
Class PyGetattr (Args V : Type) := py_getattr : V → string → option (Args → V).

Definition hasattr {Args V} `{PyGetattr Args V} (val : V) (name : string) : bool :=
  match py_getattr val name with
  | Some _ => true
  | None => false
  end.

(** ** SymDict, by value *)

Module SymDict.
Section symdict.
Context {K : Type} `{Countable K} {V : Type}.

(** [class SymDict]: [__init__] stores [values] in [self.dict]. *)
Record SymDict := mk { dict : gmap (option K) V }.

(** The right operand of [+]: a [SymDict] or any other value
    ([isinstance(other, SymDict)]). *)
Inductive operand :=
| Sym (s : SymDict)
| Val (v : V).

(** [base_utils.py] l.152-155: a value that is not a [SymDict] becomes
    the [SymDict] with the single key [None]. *)
Definition coerce (other : operand) : SymDict :=
  match other with
  | Sym s => s
  | Val v => let dic := ∅ in
             let dic := <[None := v]> dic in
             mk dic
  end.

(** [dict.get(key, default)] *)
Definition get (d : gmap (option K) V) (key : option K) (default_ : V) : V :=
  default default_ (d !! key).

Definition _apply_op (self : SymDict) (other : operand)
    (fop : V → V → V) (null_val : V) : SymDict :=
  let other := coerce other in
  let all_keys : gset (option K) := dom (dict other) ∪ dom (dict self) in
  mk (set_to_map
        (λ key, (key, fop (get (dict self) key null_val)
                          (get (dict other) key null_val)))
        all_keys).

Definition _apply_self (self : SymDict) (fop : V → V) : SymDict :=
  mk (fop <$> dict self).

Section arith.
Context `{PyAdd V, PyZero V}.

Definition __add__ (self : SymDict) (other : operand) : SymDict :=
  _apply_op self other (λ a b, py_add a b) py_zero.

Definition __radd__ (self : SymDict) (other : operand) : SymDict :=
  _apply_op self other (λ a b, py_add b a) py_zero.

(** The expression [a + b] as Python dispatches it: [a.__add__(b)] when
    [a] is a [SymDict]; when [a] is any other value its own [__add__]
    does not know [SymDict] and the reflected [b.__radd__(a)] runs. *)
Definition binary_add (a b : operand) : operand :=
  match a, b with
  | Sym s, _ => Sym (__add__ s b)
  | Val v, Sym s => Sym (__radd__ s (Val v))
  | Val v, Val w => Val (py_add v w)
  end.
End arith.

Definition __mul__ `{PyMul V} (self : SymDict) (other : V) : SymDict :=
  _apply_self self (λ a, py_mul a other).

Definition __rmul__ `{PyMul V} (self : SymDict) (other : V) : SymDict :=
  _apply_self self (λ a, py_mul other a).

Definition __truediv__ `{PyTrueDiv V} (self : SymDict) (other : V) : SymDict :=
  _apply_self self (λ a, py_truediv a other).

Section defer.
Context {Args : Type} `{PyGetattr Args V}.

(** One entry of the comprehension of [_defer]:
    [val] when [hasattr(val, funcname)] is false, otherwise
    [getattr(val, funcname)] called with [args] and [kwargs]. *)
Definition defer_val (funcname : string) (args : Args) (val : V) : V :=
  if negb (hasattr val funcname) then val
  else match py_getattr val funcname with
       | Some method => method args
       | None => val
       end.

Definition _defer (self : SymDict) (funcname : string) (args : Args) : SymDict :=
  mk (defer_val funcname args <$> dict self).

Definition xreplace (self : SymDict) (args : Args) : SymDict :=
  _defer self "xreplace" args.
End defer.

End symdict.
Global Arguments SymDict K {_ _} V.
Global Arguments operand K {_ _} V.
End SymDict.

(** ** SymDict, by reference

    The same methods over a store of objects, as Python runs them: a
    [SymDict] object holds a reference to the dict it was built from, and
    every dict and every [SymDict] has an identity. *)

Module Heap.
Section heap.
Context {K : Type} `{Countable K} {V : Type}.

Definition loc := positive.

Inductive object :=
| ODict (d : gmap (option K) V)
| OSymDict (dict : loc).

Definition M (A : Type) : Type := gmap loc object → option (A * gmap loc object).

#[global] Instance M_ret : MRet M := λ A a h, Some (a, h).
#[global] Instance M_bind : MBind M := λ A B f m h,
  match m h with
  | Some (a, h') => f a h'
  | None => None
  end.

(** A new object gets an identity no live object has. *)
Definition alloc (o : object) : M loc :=
  λ h, let l := fresh (dom h) in Some (l, <[l := o]> h).

(** [dict()] and dict displays. *)
Definition new_dict (d : gmap (option K) V) : M loc := alloc (ODict d).

(** [dic[key] = val], in place. *)
Definition setitem (dic : loc) (key : option K) (val : V) : M unit :=
  λ h, match h !! dic with
       | Some (ODict d) => Some (tt, <[dic := ODict (<[key := val]> d)]> h)
       | _ => None
       end.

(** [SymDict(values)]: [self.dict = values], the dict is not copied. *)
Definition new_SymDict (values : loc) : M loc := alloc (OSymDict values).

(** [self.dict] *)
Definition self_dict (self : loc) : M loc :=
  λ h, match h !! self with
       | Some (OSymDict d) => Some (d, h)
       | _ => None
       end.

(** Reading a dict ([keys()], [get], [items()]). *)
Definition read (dic : loc) : M (gmap (option K) V) :=
  λ h, match h !! dic with
       | Some (ODict d) => Some (d, h)
       | _ => None
       end.

(** An operand: a reference to a [SymDict] object, or another value. *)
Inductive operand :=
| Ref (s : loc)
| Val (v : V).

Definition _apply_op (self : loc) (other : operand)
    (fop : V → V → V) (null_val : V) : M loc :=
  other ← match other with
          | Ref s => mret s
          | Val v => dic ← new_dict ∅;
                     _ ← setitem dic None v;
                     new_SymDict dic
          end;
  other_dict ← self_dict other;
  other_items ← read other_dict;
  self_dict_ ← self_dict self;
  self_items ← read self_dict_;
  let all_keys : gset (option K) := dom other_items ∪ dom self_items in
  res ← new_dict (set_to_map
                    (λ key, (key, fop (SymDict.get self_items key null_val)
                                      (SymDict.get other_items key null_val)))
                    all_keys);
  new_SymDict res.

Definition _apply_self (self : loc) (fop : V → V) : M loc :=
  d ← self_dict self;
  items ← read d;
  res ← new_dict (fop <$> items);
  new_SymDict res.

Definition __add__ `{PyAdd V, PyZero V} (self : loc) (other : operand) : M loc :=
  _apply_op self other (λ a b, py_add a b) py_zero.

Definition __radd__ `{PyAdd V, PyZero V} (self : loc) (other : operand) : M loc :=
  _apply_op self other (λ a b, py_add b a) py_zero.

Definition __mul__ `{PyMul V} (self : loc) (other : V) : M loc :=
  _apply_self self (λ a, py_mul a other).

Definition __rmul__ `{PyMul V} (self : loc) (other : V) : M loc :=
  _apply_self self (λ a, py_mul other a).

Definition __truediv__ `{PyTrueDiv V} (self : loc) (other : V) : M loc :=
  _apply_self self (λ a, py_truediv a other).

Definition _defer {Args} `{PyGetattr Args V}
    (self : loc) (funcname : string) (args : Args) : M loc :=
  d ← self_dict self;
  items ← read d;
  res ← new_dict (SymDict.defer_val funcname args <$> items);
  new_SymDict res.

Definition xreplace {Args} `{PyGetattr Args V} (self : loc) (args : Args) : M loc :=
  _defer self "xreplace" args.

(** [s] is a [SymDict] object of the store whose dict holds [d]. *)
Definition holds (h : gmap loc object) (s : loc) (d : gmap (option K) V) : Prop :=
  ∃ dl, h !! s = Some (OSymDict dl) ∧ h !! dl = Some (ODict d).

(** [r] is a [SymDict] object holding [d] in [h'], and neither [r] nor
    its dict existed in [h]. *)
Definition fresh_in (h h' : gmap loc object) (r : loc) (d : gmap (option K) V) : Prop :=
  ∃ dl, h !! r = None ∧ h !! dl = None ∧
        h' !! r = Some (OSymDict dl) ∧ h' !! dl = Some (ODict d).

(** Every object of [h] is in [h'], with the same contents. *)
Definition preserved (h h' : gmap loc object) : Prop :=
  ∀ l o, h !! l = Some o → h' !! l = Some o.

(** Running [m] in [h] returns a new [SymDict] object holding [res], and
    every object of [h] is as it was: in particular every [SymDict] of
    [h] holds the dict it held. *)
Definition pure_op (m : M loc) (h : gmap loc object) (res : gmap (option K) V) : Prop :=
  ∃ r h', m h = Some (r, h') ∧ fresh_in h h' r res ∧ preserved h h'
          ∧ ∀ s d, holds h s d → holds h' s d.

(** The operand [o] of the store is the operand [p] by value. *)
Definition models (h : gmap loc object) (o : operand) (p : SymDict.operand K V) : Prop :=
  match o, p with
  | Ref x, SymDict.Sym s => holds h x (SymDict.dict s)
  | Val v, SymDict.Val w => v = w
  | _, _ => False
  end.

End heap.
Global Arguments object K {_ _} V.
Global Arguments operand : clear implicits.
End Heap.

(** ** Max, Min and interpolate over exact rationals *)

Module Interp.
Local Open Scope Q_scope.

Definition Max (a b : Q) : Q := (a + b + Qabs (a - b)) / 2.

Definition Min (a b : Q) : Q := (a + b - Qabs (b - a)) / 2.

Definition interpolate (x x1 x2 y1 y2 : Q) : Q :=
  let x := Min (Max x x1) x2 in
  y1 + (y2 - y1) * (x - x1) / (x2 - x1).

End Interp.

(** ** Exceptions *)

Inductive exn :=
| AssertionError
| DeprecationWarning (msg : string)
| KeyError (key : string).

Inductive result (A : Type) :=
| Ok (a : A)
| Raise (e : exn).
Global Arguments Ok {A} a.
Global Arguments Raise {A} e.

(** ** Project helpers of [__init__.py] *)

Module Project.




End Project.

(** ** TabbedDataframe.to_excel

    The spreadsheet writer is [pandas.ExcelWriter] over [xlsxwriter].
    It is an external library, taken as pandas documents it: a workbook
    is the list of its sheets in creation order, [DataFrame.to_excel] writes the
    frame at [startrow] on the sheet of the given name, which it adds when
    the workbook has none of that name, [write_string] sets one cell, and
    leaving the [with] block saves the workbook under the file name. *)

Module Tabbed.

(** [str.endswith] *)
Definition endswith (s suffix : string) : bool :=
  let n := String.length s in
  let m := String.length suffix in
  (m <=? n)%nat && bool_decide (String.substring (n - m) m s = suffix).

Section tabbed.
Context {DF Obj : Type} (str : Obj → string).

Record worksheet := mk_sheet {
  frames : list (nat * DF);             (* start row, dataframe *)
  cells : list (nat * nat * string)     (* row, column, text *)
}.

Definition workbook : Type := list (string * worksheet).

Record world := mk_world {
  opened : list string;                 (* writers opened, by file name *)
  files : gmap string workbook          (* saved workbooks *)
}.

Record TabbedDataframe := mk {
  dataframes : list (string * DF);      (* keyword arguments, in order *)
  metadata : list (Obj * Obj)           (* dict items, in order *)
}.

(** The body of the [with] block runs over the writer's workbook. *)
Definition W (A : Type) : Type := workbook → result A * workbook.

#[global] Instance W_ret : MRet W := λ A a w, (Ok a, w).
#[global] Instance W_bind : MBind W := λ A B f m w,
  match m w with
  | (Ok a, w') => f a w'
  | (Raise e, w') => (Raise e, w')
  end.

Fixpoint update_sheet (name : string) (f : worksheet → worksheet)
    (w : workbook) : option workbook :=
  match w with
  | [] => None
  | (n, ws) :: rest =>
      if decide (n = name) then Some ((n, f ws) :: rest)
      else cons (n, ws) <$> update_sheet name f rest
  end.

(** [df.to_excel(writer, sheet_name=name, startrow=startrow)] *)
Definition df_to_excel (df : DF) (sheet_name : string) (startrow : nat) : W unit :=
  λ w, let put ws := mk_sheet (frames ws ++ [(startrow, df)]) (cells ws) in
       match update_sheet sheet_name put w with
       | Some w' => (Ok tt, w')
       | None => (Ok tt, w ++ [(sheet_name, put (mk_sheet [] []))])
       end.

(** [writer.sheets[name]]: the worksheet, known by its name. *)
Definition sheets_getitem (name : string) : W string :=
  λ w, match update_sheet name id w with
       | Some _ => (Ok name, w)
       | None => (Raise (KeyError name), w)
       end.

(** [worksheet.write_string(row, col, text)] *)
Definition write_string (worksheet_ : string) (row col : nat) (text : string) : W unit :=
  λ w, let put ws := mk_sheet (frames ws) (cells ws ++ [(row, col, text)]) in
       match update_sheet worksheet_ put w with
       | Some w' => (Ok tt, w')
       | None => (Raise (KeyError worksheet_), w)
       end.

(** [for imeta, (key, val) in enumerate(self.metadata.items())] *)
Fixpoint write_metadata (worksheet_ : string) (imeta : nat)
    (items : list (Obj * Obj)) : W unit :=
  match items with
  | [] => mret tt
  | (key, val) :: rest =>
      _ ← write_string worksheet_ imeta 0 (str key);
      _ ← write_string worksheet_ imeta 1 (str val);
      write_metadata worksheet_ (S imeta) rest
  end.

(** [for itab, (name, df) in enumerate(self.dataframes.items())] *)
Fixpoint write_tabs (self : TabbedDataframe) (itab : nat)
    (items : list (string * DF)) : W unit :=
  match items with
  | [] => mret tt
  | (name, df) :: rest =>
      _ ← (if (itab =? 0)%nat then
             _ ← df_to_excel df name (length (metadata self) + 1);
             worksheet_ ← sheets_getitem name;
             write_metadata worksheet_ 0 (metadata self)
           else
             df_to_excel df name 0);
      write_tabs self (S itab) rest
  end.

Definition to_excel (self : TabbedDataframe) (filename : string)
    (fs : world) : result unit * world :=
  if negb (endswith filename ".xlsx") then (Raise AssertionError, fs)
  else
    let fs := mk_world (opened fs ++ [filename]) (files fs) in
    let (r, w) := write_tabs self 0 (dataframes self) [] in
    (r, mk_world (opened fs) (<[filename := w]> (files fs))).

(** The cells the metadata occupy: one row per item, the key in column 0
    and the value in column 1. *)
Definition metadata_cells (items : list (Obj * Obj)) : list (nat * nat * string) :=
  concat (imap (λ i '(key, val), [(i, 0%nat, str key); (i, 1%nat, str val)]) items).

End tabbed.
Global Arguments worksheet : clear implicits.
Global Arguments workbook : clear implicits.
Global Arguments world : clear implicits.
Global Arguments TabbedDataframe : clear implicits.
End Tabbed.

(** ** Two value types

    [fractions.Fraction] has the three operators and no [xreplace]
    attribute; [Qcdiv] is total where Python raises on a zero divisor,
    and no property below divides by zero.  A linear expression [coef * x + const] in one symbol [x]
    has [+] and an [xreplace] method, called here with the number that
    replaces [x]. *)

Module Values.

#[global] Instance Fraction_add : PyAdd Qc := Qcplus.
#[global] Instance Fraction_mul : PyMul Qc := Qcmult.
#[global] Instance Fraction_truediv : PyTrueDiv Qc := Qcdiv.
#[global] Instance Fraction_zero : PyZero Qc := Q2Qc 0.
#[global] Instance Fraction_getattr : PyGetattr unit Qc := λ _ _, None.

Record linexpr := Lin { coef : Z; const : Z }.

#[global] Instance linexpr_add : PyAdd linexpr :=
  λ a b, Lin (coef a + coef b) (const a + const b).
#[global] Instance linexpr_zero : PyZero linexpr := Lin 0 0.
#[global] Instance linexpr_getattr : PyGetattr Z linexpr :=
  λ e name, if decide (name = "xreplace")
            then Some (λ x, Lin 0 (coef e * x + const e))
            else None.

End Values.

(** ** Sample data *)

Module Samples.
Import Values.

(** A SymDict of fractions per impact category, with an unflagged part. *)
Definition impacts : SymDict.SymDict string Qc :=
  SymDict.mk {[Some "climate" := Q2Qc (3 # 2); None := Q2Qc 2]}.

Definition more_impacts : SymDict.SymDict string Qc :=
  SymDict.mk {[Some "climate" := Q2Qc 1; Some "land" := Q2Qc (1 # 4)]}.

(** Two SymDicts of linear expressions in one parameter. *)
Definition per_km : SymDict.SymDict string linexpr :=
  SymDict.mk {[Some "climate" := Lin 2 1; None := Lin 0 5]}.

Definition per_kg : SymDict.SymDict string linexpr :=
  SymDict.mk {[Some "climate" := Lin 1 0; Some "land" := Lin 3 3]}.

(** A store with [impacts] at 2 and [more_impacts] at 4, each around its
    own dict. *)
Definition store : gmap Heap.loc (Heap.object string Qc) :=
  {[ 1%positive := Heap.ODict (SymDict.dict impacts);
     2%positive := Heap.OSymDict 1%positive;
     3%positive := Heap.ODict (SymDict.dict more_impacts);
     4%positive := Heap.OSymDict 3%positive ]}.

(** Two dataframes, named by numbers, under two tab names, and two
    metadata items. *)
Definition report : Tabbed.TabbedDataframe nat string :=
  Tabbed.mk [("impacts", 10%nat); ("params", 11%nat)]
            [("author", "me"); ("unit", "kg")].

Definition no_files : Tabbed.world nat := Tabbed.mk_world [] ∅.

End Samples.

(** ** The other helpers of [base_utils.py] *)

(** [SymDict.free_symbols]: the union of the [free_symbols] of the values
    that have the attribute, as a list. *)

Class PyFreeSymbols (S V : Type) `{Countable S} :=
  py_free_symbols : V → option (gset S).

Module SymDictAttr.
Section free_symbols.
Context {K : Type} `{Countable K} {V : Type}.
Context {S : Type} `{PyFreeSymbols S V}.

(** One turn of the loop: [res |= val.free_symbols] when
    [hasattr(val, "free_symbols")]. *)
Definition collect (key : option K) (val : V) (res : gset S) : gset S :=
  match py_free_symbols val with
  | Some symbols => res ∪ symbols
  | None => res
  end.

Definition free_symbols (self : SymDict.SymDict K V) : list S :=
  let res := map_fold collect ∅ (SymDict.dict self) in
  elements res.

End free_symbols.
End SymDictAttr.

(** [_snake2camel].  [str.split], [str.title] and [str.join] are
    Python's, on ASCII text: a letter that follows a letter is lowered,
    any other letter is raised, and nothing else changes. *)

Module Snake.
Import Stdlib.Strings.Ascii.

Definition is_upper (c : ascii) : bool :=
  let n := nat_of_ascii c in (65 <=? n)%nat && (n <=? 90)%nat.

Definition is_lower (c : ascii) : bool :=
  let n := nat_of_ascii c in (97 <=? n)%nat && (n <=? 122)%nat.

Definition is_cased (c : ascii) : bool := is_upper c || is_lower c.

Definition to_upper (c : ascii) : ascii :=
  if is_lower c then ascii_of_nat (nat_of_ascii c - 32) else c.

Definition to_lower (c : ascii) : ascii :=
  if is_upper c then ascii_of_nat (nat_of_ascii c + 32) else c.

Fixpoint title_from (previous_is_cased : bool) (s : string) : string :=
  match s with
  | EmptyString => EmptyString
  | String c rest =>
      String (if previous_is_cased then to_lower c else to_upper c)
             (title_from (is_cased c) rest)
  end.

(** [word.title()] *)
Definition title (word : string) : string := title_from false word.

(** [val.split(sep)] for a separator of one character. *)
Fixpoint split (sep : ascii) (val : string) : list string :=
  match val with
  | EmptyString => [EmptyString]
  | String c rest =>
      if Ascii.eqb c sep then EmptyString :: split sep rest
      else match split sep rest with
           | word :: words => String c word :: words
           | [] => [String c EmptyString]
           end
  end.

(** [sep.join(words)] for the empty separator. *)
Definition join (words : list string) : string :=
  foldr String.append EmptyString words.

Definition _snake2camel (val : string) : string :=
  join (title <$> split "_" val).

(** [val.count(c)] *)
Fixpoint count (c : ascii) (val : string) : nat :=
  match val with
  | EmptyString => 0
  | String c' rest => (if Ascii.eqb c' c then 1 else 0) + count c rest
  end.

(** [val.isascii()] *)
Fixpoint isascii (val : string) : bool :=
  match val with
  | EmptyString => true
  | String c rest => (nat_of_ascii c <? 128)%nat && isascii rest
  end.

End Snake.

(** [_getDb]: the pool of [Database] instances.  [bw.Database(dbname)]
    makes a new object each time it is called; an object is known by its
    name and by the rank of its construction, and the calls of the
    constructor are logged. *)

Module Pool.

Record Database := mk_db { db_name : string; db_id : nat }.

Record state := mk_state {
  dbs : gmap string Database;           (* the module-level dict [dbs] *)
  constructed : list string             (* calls of [bw.Database] *)
}.

Definition new_Database (dbname : string) (st : state) : Database * state :=
  (mk_db dbname (length (constructed st)),
   mk_state (dbs st) (constructed st ++ [dbname])).

Definition _getDb (dbname : string) (st : state) : option Database * state :=
  let st :=
    if bool_decide (dbname ∉ dom (dbs st)) then
      let (db, st) := new_Database dbname st in
      mk_state (<[dbname := db]> (dbs st)) (constructed st)
    else st in
  (dbs st !! dbname, st).

(** A run of calls, one per name, and the instances they return. *)
Fixpoint getDb_all (names : list string) (st : state) : list (option Database) * state :=
  match names with
  | [] => ([], st)
  | dbname :: rest =>
      let (db, st) := _getDb dbname st in
      let (others, st) := getDb_all rest st in
      (db :: others, st)
  end.

(** The state the pool is in when it has only been used through
    [_getDb]: the constructor was called once for each name of the pool
    and for no other. *)
Definition once_each (st : state) : Prop :=
  NoDup (constructed st) ∧ ∀ name, name ∈ constructed st ↔ name ∈ dom (dbs st).

End Pool.

(** [_actName]: an activity is read as a mapping from field names to
    text. *)

Module Act.

Definition _actName (act : gmap string string) : result string :=
  match act !! "name" with
  | None => Raise (KeyError "name")
  | Some res =>
      if bool_decide ("location" ∈ dom act)
         && negb (bool_decide (act !! "location" = Some "GLO"))
      then match act !! "location" with
           | Some location => Ok (String.append res (String.append "[" (String.append location "]")))
           | None => Raise (KeyError "location")
           end
      else Ok res
  end.

End Act.

(** [r_squared] over exact rationals.  The arrays are one-dimensional;
    [-] between two arrays is numpy's, which pairs the entries of arrays
    of one length, stretches an array of length one, and fails on any
    other pair of lengths.  There is no result either when [ss_tot] is
    zero, where the division has none. *)

Module Stats.
Local Open Scope Q_scope.

(** [a.sum()] *)
Definition sum (a : list Q) : Q := foldr Qplus 0 a.

(** [a.mean()] *)
Definition mean (a : list Q) : Q := sum a / inject_Z (Z.of_nat (length a)).

(** [(a - b) ** 2] for two arrays. *)
Definition squared_diff (a b : list Q) : option (list Q) :=
  let f x y := (x - y) ^ 2 in
  if decide (length a = length b) then Some (zip_with f a b)
  else match a, b with
       | [x], _ => Some (f x <$> b)
       | _, [y] => Some ((λ x, f x y) <$> a)
       | _, _ => None
       end.

Definition r_squared (y y_hat : list Q) : option Q :=
  let y_bar := mean y in
  let ss_tot := sum ((λ v, (v - y_bar) ^ 2) <$> y) in
  match squared_diff y y_hat with
  | None => None
  | Some d =>
      let ss_res := sum d in
      if Qeq_bool ss_tot 0 then None else Some (1 - (ss_res / ss_tot))
  end.

End Stats.

(** ** More sample data *)

Module MoreSamples.
Import Values.

(** The free symbols of a linear expression: its one symbol, when the
    coefficient is not zero. *)
#[global] Instance linexpr_free_symbols : PyFreeSymbols string linexpr :=
  λ e, Some (if decide (coef e = 0%Z) then ∅ else {["x"]}).

(** An activity located in France, and the observations [1, 2, 3]. *)
Definition activity : gmap string string :=
  {["name" := "electricity"; "location" := "FR"; "unit" := "kWh"]}.

Definition observations : list Q := [1; 2; 3]%Q.

End MoreSamples.

(** * Properties *)

(** ** SymDict *)

Section symdict_props.
Context {K : Type} `{Countable K} {V : Type}.
Import SymDict.

Lemma lookup_apply_op (self : SymDict K V) (other : operand K V)
    (fop : V → V → V) (null_val : V) (k : option K) :
  k ∈ dom (dict (coerce other)) ∪ dom (dict self) →
  dict (_apply_op self other fop null_val) !! k
  = Some (fop (get (dict self) k null_val) (get (dict (coerce other)) k null_val)).
Proof.
  intros Hk. unfold _apply_op; cbn [dict].
  apply lookup_set_to_map.
  - intros y y' _ _ Heq. exact Heq.
  - exists k. split; [exact Hk | reflexivity].
Qed.

Lemma lookup_apply_op_None (self : SymDict K V) (other : operand K V)
    (fop : V → V → V) (null_val : V) (k : option K) :
  k ∉ dom (dict (coerce other)) ∪ dom (dict self) →
  dict (_apply_op self other fop null_val) !! k = None.
Proof.
  intros Hk. apply eq_None_not_Some. intros [x Hx].
  unfold _apply_op in Hx; cbn [dict] in Hx.
  apply lookup_set_to_map in Hx as (y & Hy & Heq).
  - simplify_eq. contradiction.
  - intros y y' _ _ Heq. exact Heq.
Qed.

Lemma dom_apply_op (self : SymDict K V) (other : operand K V)
    (fop : V → V → V) (null_val : V) :
  dom (dict (_apply_op self other fop null_val))
  = dom (dict (coerce other)) ∪ dom (dict self).
Proof.
  apply set_eq. intros k. rewrite elem_of_dom. split.
  - intros [x Hx].
    destruct (decide (k ∈ dom (dict (coerce other)) ∪ dom (dict self))) as [|Hn]; [done|].
    rewrite (lookup_apply_op_None _ _ _ _ _ Hn) in Hx. discriminate.
  - intros Hk. rewrite (lookup_apply_op _ _ _ _ _ Hk). eauto.
Qed.

Lemma get_Some (d : gmap (option K) V) k v x : d !! k = Some x → get d k v = x.
Proof. unfold get. by intros ->. Qed.

Lemma get_None (d : gmap (option K) V) k v : d !! k = None → get d k v = v.
Proof. unfold get. by intros ->. Qed.

Lemma symdict_eq (s1 s2 : SymDict K V) :
  (∀ k, dict s1 !! k = dict s2 !! k) → s1 = s2.
Proof. destruct s1, s2; cbn. intros Hk. f_equal. by apply map_eq. Qed.

Section add_props.
Context `{PyAdd V, PyZero V}.

(** C1. [s + o] and [o + s] are new SymDicts over the union of the two
    key sets; the value at a key is the sum of the two operands' values
    there, in the order of the operands, an absent key counting for [0].
    An operand [o] that is not a SymDict stands for the SymDict with the
    one key [None] mapped to [o]: it is added under [None] and every other
    entry of [s] gets [0] added, not [o]. *)
Theorem add_union_of_keys_sum_of_values (s : SymDict K V) (o : operand K V) :
  let o' := coerce o in
  (∃ r, binary_add (Sym s) o = Sym r
        ∧ dom (dict r) = dom (dict s) ∪ dom (dict o')
        ∧ ∀ k, k ∈ dom (dict s) ∪ dom (dict o') →
               dict r !! k
               = Some (py_add (get (dict s) k py_zero) (get (dict o') k py_zero)))
  ∧ (∃ r, binary_add o (Sym s) = Sym r
          ∧ dom (dict r) = dom (dict o') ∪ dom (dict s)
          ∧ ∀ k, k ∈ dom (dict o') ∪ dom (dict s) →
                 dict r !! k
                 = Some (py_add (get (dict o') k py_zero) (get (dict s) k py_zero)))
  ∧ (∀ v, o = Val v →
          dict o' = {[None := v]}
          ∧ dict (__add__ s o) !! None
            = Some (py_add (get (dict s) None py_zero) v)
          ∧ dict (__radd__ s o) !! None
            = Some (py_add v (get (dict s) None py_zero))
          ∧ ∀ k x, dict s !! Some k = Some x →
                   dict (__add__ s o) !! Some k = Some (py_add x py_zero)
                   ∧ dict (__radd__ s o) !! Some k = Some (py_add py_zero x)).
Proof.
  intros o'. split; [|split].
  - exists (__add__ s o). split; [reflexivity|]. split.
    + unfold __add__. rewrite dom_apply_op. fold o'. apply (comm_L (∪)).
    + intros k Hk. unfold __add__. rewrite lookup_apply_op; [done|].
      fold o'. by rewrite (comm_L (∪)).
  - destruct o as [s2|v].
    + exists (__add__ s2 (Sym s)). split; [reflexivity|]. split.
      * unfold __add__. rewrite dom_apply_op. apply (comm_L (∪)).
      * intros k Hk. unfold __add__. rewrite lookup_apply_op; [done|].
        cbn [coerce]. by rewrite (comm_L (∪)).
    + exists (__radd__ s (Val v)). split; [reflexivity|]. split.
      * unfold __radd__. rewrite dom_apply_op. done.
      * intros k Hk. unfold __radd__. rewrite lookup_apply_op; done.
  - intros v ->. subst o'. cbn [coerce dict].
    assert (Hnone : None ∈ dom (dict (coerce (Val v))) ∪ dom (dict s)).
    { apply elem_of_union_l, elem_of_dom. cbn. rewrite lookup_insert_eq. eauto. }
    split; [by rewrite insert_empty|]. split; [|split].
    + unfold __add__. rewrite lookup_apply_op by exact Hnone.
      cbn. unfold get at 2. by rewrite lookup_insert_eq.
    + unfold __radd__. rewrite lookup_apply_op by exact Hnone.
      cbn. unfold get at 1. by rewrite lookup_insert_eq.
    + intros k x Hx.
      assert (Hk : Some k ∈ dom (dict (coerce (Val v))) ∪ dom (dict s)).
      { apply elem_of_union_r, elem_of_dom. eauto. }
      unfold __add__, __radd__. rewrite !lookup_apply_op by exact Hk.
      cbn. rewrite (get_Some _ _ _ _ Hx).
      rewrite (get_None (<[None:=v]> ∅)); [done|].
      by rewrite lookup_insert_ne.
Qed.

(** C5. Addition of SymDicts is commutative when the addition of values
    is, and the empty SymDict is its identity on both sides: on the right
    for an [s] whose values [v] satisfy [v + 0 = v], on the left for an
    [s] whose values satisfy [0 + v = v]. *)
Theorem add_comm_and_empty_identity :
  ((∀ a b : V, py_add a b = py_add b a) →
   ∀ s1 s2 : SymDict K V, __add__ s1 (Sym s2) = __add__ s2 (Sym s1))
  ∧ (∀ s : SymDict K V,
       (∀ k v, dict s !! k = Some v → py_add v py_zero = v) →
       __add__ s (Sym (mk ∅)) = s)
  ∧ (∀ s : SymDict K V,
       (∀ k v, dict s !! k = Some v → py_add py_zero v = v) →
       __add__ (mk ∅) (Sym s) = s).
Proof.
  split; [|split].
  - intros Hcomm s1 s2. apply symdict_eq. intros k. unfold __add__.
    destruct (decide (k ∈ dom (dict s2) ∪ dom (dict s1))) as [Hk|Hk].
    + rewrite !lookup_apply_op; cbn [coerce]; [|by rewrite (comm_L (∪))|done].
      by rewrite Hcomm.
    + rewrite !lookup_apply_op_None; cbn [coerce]; [done| |done].
      by rewrite (comm_L (∪)).
  - intros s Hzero. apply symdict_eq. intros k. unfold __add__.
    destruct (dict s !! k) as [v|] eqn:Hv.
    + rewrite lookup_apply_op.
      * cbn [coerce dict]. rewrite (get_Some _ _ _ _ Hv).
        rewrite get_None by apply lookup_empty. by rewrite (Hzero k v Hv).
      * apply elem_of_union_r, elem_of_dom. eauto.
    + apply lookup_apply_op_None. cbn [coerce dict].
      rewrite dom_empty_L, (left_id_L ∅ (∪)). by apply not_elem_of_dom.
  - intros s Hzero. apply symdict_eq. intros k. unfold __add__.
    destruct (dict s !! k) as [v|] eqn:Hv.
    + rewrite lookup_apply_op.
      * cbn [coerce dict]. rewrite (get_Some _ _ _ _ Hv).
        rewrite get_None by apply lookup_empty. by rewrite (Hzero k v Hv).
      * apply elem_of_union_l, elem_of_dom. eauto.
    + apply lookup_apply_op_None. cbn [coerce dict].
      rewrite dom_empty_L, (right_id_L ∅ (∪)). by apply not_elem_of_dom.
Qed.

End add_props.

Lemma lookup_apply_self (self : SymDict K V) (fop : V → V) (k : option K) :
  dict (_apply_self self fop) !! k = fop <$> dict self !! k.
Proof. unfold _apply_self; cbn [dict]. apply lookup_fmap. Qed.



Section defer_props.
Context {Args : Type} `{PyGetattr Args V}.

Lemma defer_val_method funcname (args : Args) (val : V) method :
  py_getattr val funcname = Some method → defer_val funcname args val = method args.
Proof. unfold defer_val, hasattr. by intros ->. Qed.

Lemma defer_val_no_attr funcname (args : Args) (val : V) :
  py_getattr val funcname = None → defer_val funcname args val = val.
Proof. unfold defer_val, hasattr. by intros ->. Qed.

Lemma lookup_xreplace (s : SymDict K V) (sigma : Args) k :
  dict (xreplace s sigma) !! k = defer_val "xreplace" sigma <$> dict s !! k.
Proof. unfold xreplace, _defer; cbn [dict]. apply lookup_fmap. Qed.

(** C2. [s.xreplace(sigma)] is a new SymDict with exactly the keys of
    [s]; a value with an [xreplace] attribute is replaced by the result
    of calling it with [sigma], a value without one is kept. *)
Theorem xreplace_defers_to_values (s : SymDict K V) (sigma : Args) :
  dom (dict (xreplace s sigma)) = dom (dict s)
  ∧ ∀ k val, dict s !! k = Some val →
      (∀ method, py_getattr val "xreplace" = Some method →
                 dict (xreplace s sigma) !! k = Some (method sigma))
      ∧ (hasattr val "xreplace" = false →
         dict (xreplace s sigma) !! k = Some val).
Proof.
  split.
  - unfold xreplace, _defer; cbn [dict]. apply dom_fmap_L.
  - intros k val Hk. split.
    + intros method Hm. rewrite lookup_xreplace, Hk. cbn.
      by rewrite (defer_val_method _ _ _ _ Hm).
    + intros Hno. rewrite lookup_xreplace, Hk. cbn.
      rewrite defer_val_no_attr; [done|].
      unfold hasattr in Hno. by destruct (py_getattr val "xreplace").
Qed.

(** C3. Deferred substitution commutes with addition: when the
    substitution applied to a value distributes over the addition of
    values and leaves [0] as it is, [(s1 + s2).xreplace(sigma)] and
    [s1.xreplace(sigma) + s2.xreplace(sigma)] are the same SymDict. *)
Theorem xreplace_add_commute `{PyAdd V, PyZero V}
    (s1 s2 : SymDict K V) (sigma : Args) :
  let subst := defer_val "xreplace" sigma in
  (∀ a b, subst (py_add a b) = py_add (subst a) (subst b)) →
  subst py_zero = py_zero →
  xreplace (__add__ s1 (Sym s2)) sigma
  = __add__ (xreplace s1 sigma) (Sym (xreplace s2 sigma)).
Proof.
  intros subst Hdist Hzero. apply symdict_eq. intros k.
  rewrite lookup_xreplace. unfold __add__.
  assert (Hdom : dom (dict (coerce (Sym (xreplace s2 sigma)))) ∪ dom (dict (xreplace s1 sigma))
                 = dom (dict (coerce (Sym s2))) ∪ dom (dict s1)).
  { cbn [coerce]. unfold xreplace, _defer; cbn [dict]. by rewrite !dom_fmap_L. }
  assert (Hget : ∀ s : SymDict K V,
            get (dict (xreplace s sigma)) k py_zero = subst (get (dict s) k py_zero)).
  { intros s. unfold get. rewrite lookup_xreplace.
    destruct (dict s !! k); cbn; [done | by rewrite Hzero]. }
  destruct (decide (k ∈ dom (dict (coerce (Sym s2))) ∪ dom (dict s1))) as [Hk|Hk].
  - rewrite !lookup_apply_op; [|by rewrite Hdom|done].
    cbn [coerce fmap option_fmap option_map]. by rewrite Hdist, !Hget.
  - rewrite !lookup_apply_op_None; [done|by rewrite Hdom|done].
Qed.

End defer_props.
End symdict_props.

(** ** SymDict operations leave their operands alone *)

Section heap_props.
Context {K : Type} `{Countable K} {V : Type}.
Import Heap.

Lemma alloc_run (o : object K V) (h : gmap loc (object K V)) :
  ∃ l, alloc o h = Some (l, <[l := o]> h) ∧ h !! l = None.
Proof.
  exists (fresh (dom h)). split; [reflexivity|].
  apply not_elem_of_dom, is_fresh.
Qed.

Lemma preserved_refl (h : gmap loc (object K V)) : preserved h h.
Proof. by intros l o. Qed.

Lemma preserved_trans (h1 h2 h3 : gmap loc (object K V)) :
  preserved h1 h2 → preserved h2 h3 → preserved h1 h3.
Proof. intros H12 H23 l o Hl. eauto. Qed.

Lemma preserved_insert (h : gmap loc (object K V)) l o :
  h !! l = None → preserved h (<[l := o]> h).
Proof.
  intros Hl l' o' Hl'. rewrite lookup_insert_ne; [done|].
  intros ->. rewrite Hl in Hl'. discriminate.
Qed.

Lemma preserved_None (h h' : gmap loc (object K V)) l :
  preserved h h' → h' !! l = None → h !! l = None.
Proof.
  intros Hp Hl. destruct (h !! l) as [o|] eqn:Ho; [|done].
  apply Hp in Ho. rewrite Hl in Ho. discriminate.
Qed.

Lemma preserved_holds (h h' : gmap loc (object K V)) s d :
  preserved h h' → holds h s d → holds h' s d.
Proof. intros Hp (dl & Hs & Hd). exists dl. split; by apply Hp. Qed.

(** Building a dict and a [SymDict] around it, the end of every method. *)
Lemma wrap_run (h0 h : gmap loc (object K V)) (res : gmap (option K) V) :
  preserved h0 h →
  ∃ r h', (res ← new_dict res; new_SymDict res) h = Some (r, h')
          ∧ fresh_in h0 h' r res ∧ preserved h0 h'.
Proof.
  intros Hp.
  destruct (alloc_run (ODict res) h) as (dl & Hdl & Hfresh_dl).
  destruct (alloc_run (OSymDict dl) (<[dl := ODict res]> h)) as (r & Hr & Hfresh_r).
  exists r, (<[r := OSymDict dl]> (<[dl := ODict res]> h)). split; [|split].
  - unfold mbind, M_bind, new_dict, new_SymDict. by rewrite Hdl, Hr.
  - assert (r ≠ dl) as Hne.
    { intros ->. by rewrite lookup_insert_eq in Hfresh_r. }
    exists dl. repeat split.
    + eapply preserved_None; [exact Hp|].
      by rewrite lookup_insert_ne in Hfresh_r.
    + by eapply preserved_None.
    + by rewrite lookup_insert_eq.
    + rewrite lookup_insert_ne by done. by rewrite lookup_insert_eq.
  - eapply preserved_trans; [exact Hp|].
    eapply preserved_trans; by apply preserved_insert.
Qed.

Lemma pure_op_intro (m : M loc) (h : gmap loc (object K V)) res :
  (∃ r h', m h = Some (r, h') ∧ fresh_in h h' r res ∧ preserved h h') →
  pure_op m h res.
Proof.
  intros (r & h' & Hm & Hf & Hp). exists r, h'. repeat split; try done.
  intros s d. by apply preserved_holds.
Qed.

Lemma self_dict_run (h : gmap loc (object K V)) s d :
  holds h s d → ∃ dl, self_dict s h = Some (dl, h) ∧ read dl h = Some (d, h).
Proof.
  intros (dl & Hs & Hd). exists dl. unfold self_dict, read. by rewrite Hs, Hd.
Qed.

(** A method that maps the values of [self.dict]. *)
Lemma map_values_run (f : gmap (option K) V → gmap (option K) V)
    (h : gmap loc (object K V)) self ds :
  holds h self ds →
  pure_op (d ← self_dict self; items ← read d; res ← new_dict (f items); new_SymDict res)
          h (f ds).
Proof.
  intros Hs. apply pure_op_intro.
  destruct (self_dict_run _ _ _ Hs) as (dl & Hsd & Hrd).
  destruct (wrap_run h h (f ds) (preserved_refl h)) as (r & h' & Hw & Hf & Hp).
  exists r, h'. split; [|done].
  unfold mbind at 1 2. unfold M_bind at 1 2. by rewrite Hsd, Hrd.
Qed.

(** The combination of two SymDicts of the store. *)
Lemma combine_run (h0 h : gmap loc (object K V)) self other ds do_
    (fop : V → V → V) (null_val : V) :
  preserved h0 h → holds h self ds → holds h other do_ →
  ∃ r h',
    (other_dict ← self_dict other;
     other_items ← read other_dict;
     self_dict_ ← self_dict self;
     self_items ← read self_dict_;
     res ← new_dict (set_to_map
                       (λ key, (key, fop (SymDict.get self_items key null_val)
                                         (SymDict.get other_items key null_val)))
                       (dom other_items ∪ dom self_items));
     new_SymDict res) h = Some (r, h')
    ∧ fresh_in h0 h' r
        (SymDict.dict (SymDict._apply_op (SymDict.mk ds) (SymDict.Sym (SymDict.mk do_))
                                         fop null_val))
    ∧ preserved h0 h'.
Proof.
  intros Hp Hs Ho.
  destruct (self_dict_run _ _ _ Hs) as (dl & Hsd & Hrd).
  destruct (self_dict_run _ _ _ Ho) as (ol & Hso & Hro).
  destruct (wrap_run h0 h
              (SymDict.dict (SymDict._apply_op (SymDict.mk ds)
                               (SymDict.Sym (SymDict.mk do_)) fop null_val)) Hp)
    as (r & h' & Hw & Hf & Hp').
  exists r, h'. split; [|done].
  unfold mbind at 1 2 3 4. unfold M_bind at 1 2 3 4.
  rewrite Hso, Hro, Hsd, Hrd. exact Hw.
Qed.

(** Wrapping a value: the dict made for it is new, and it is the only
    dict any method writes to. *)
Lemma coerce_val_run (h : gmap loc (object K V)) (v : V) :
  ∃ o h', (dic ← new_dict ∅; _ ← setitem dic None v; new_SymDict dic) h = Some (o, h')
          ∧ preserved h h' ∧ holds h' o (<[None := v]> ∅).
Proof.
  destruct (alloc_run (ODict ∅) h) as (dl & Hdl & Hfresh_dl).
  set (h1 := <[dl := ODict ∅]> h) in *.
  set (h2 := <[dl := ODict (<[None := v]> ∅)]> h1).
  destruct (alloc_run (OSymDict dl) h2) as (o & Ho & Hfresh_o).
  exists o, (<[o := OSymDict dl]> h2).
  assert (o ≠ dl) as Hne.
  { intros ->. unfold h2 in Hfresh_o. by rewrite lookup_insert_eq in Hfresh_o. }
  split; [|split].
  - unfold mbind, M_bind, new_dict, new_SymDict, setitem. rewrite Hdl.
    fold h1. unfold h1 at 1. rewrite lookup_insert_eq. fold h2. by rewrite Ho.
  - intros l ob Hl.
    assert (l ≠ dl) by (intros ->; rewrite Hfresh_dl in Hl; discriminate).
    assert (l ≠ o).
    { intros ->. unfold h2, h1 in Hfresh_o.
      rewrite !lookup_insert_ne in Hfresh_o by done.
      rewrite Hfresh_o in Hl. discriminate. }
    unfold h2, h1. by rewrite !lookup_insert_ne.
  - exists dl. split; [by rewrite lookup_insert_eq|].
    rewrite lookup_insert_ne by done. unfold h2. by rewrite lookup_insert_eq.
Qed.

Lemma apply_op_run (h : gmap loc (object K V)) self other p ds
    (fop : V → V → V) (null_val : V) :
  holds h self ds → models h other p →
  pure_op (_apply_op self other fop null_val) h
          (SymDict.dict (SymDict._apply_op (SymDict.mk ds) p fop null_val)).
Proof.
  intros Hs Hm. apply pure_op_intro.
  destruct other as [x|v], p as [[dx]|w]; cbn in Hm; try done.
  - destruct (combine_run h h self x ds dx fop null_val (preserved_refl h) Hs Hm)
      as (r & h' & Hrun & Hf & Hp).
    exists r, h'. split; [exact Hrun | done].
  - subst w.
    destruct (coerce_val_run h v) as (o & h1 & Hco & Hp1 & Ho).
    destruct (combine_run h h1 self o ds (<[None := v]> ∅) fop null_val Hp1
                (preserved_holds _ _ _ _ Hp1 Hs) Ho)
      as (r & h' & Hrun & Hf & Hp).
    exists r, h'. split; [|done].
    unfold _apply_op. unfold mbind at 1. unfold M_bind at 1.
    rewrite Hco. exact Hrun.
Qed.


End heap_props.

(** ** Max, Min and interpolate *)

Section interp_props.
Import Interp.
Local Open Scope Q_scope.

Lemma Max_l (a b : Q) : b <= a → Max a b == a.
Proof.
  intros Hle. unfold Max. rewrite Qabs_pos by lra. field.
Qed.

Lemma Max_r (a b : Q) : a <= b → Max a b == b.
Proof.
  intros Hle. unfold Max. rewrite Qabs_neg by lra. field.
Qed.

Lemma Min_l (a b : Q) : a <= b → Min a b == a.
Proof.
  intros Hle. unfold Min. rewrite Qabs_pos by lra. field.
Qed.

Lemma Min_r (a b : Q) : b <= a → Min a b == b.
Proof.
  intros Hle. unfold Min. rewrite Qabs_neg by lra. field.
Qed.

Lemma Max_is_Qmax (a b : Q) : Max a b == Qmax a b.
Proof.
  destruct (Qlt_le_dec a b) as [Hlt|Hle].
  - rewrite Max_r by lra. symmetry. apply Q.max_r. lra.
  - rewrite Max_l by lra. symmetry. by apply Q.max_l.
Qed.

Lemma Min_is_Qmin (a b : Q) : Min a b == Qmin a b.
Proof.
  destruct (Qlt_le_dec a b) as [Hlt|Hle].
  - rewrite Min_l by lra. symmetry. apply Q.min_l. lra.
  - rewrite Min_r by lra. symmetry. by apply Q.min_r.
Qed.

Lemma interpolate_at (x x1 x2 y1 y2 x' : Q) :
  Min (Max x x1) x2 == x' →
  interpolate x x1 x2 y1 y2 == y1 + (y2 - y1) * (x' - x1) / (x2 - x1).
Proof. intros Hx. unfold interpolate. cbv zeta. by rewrite Hx. Qed.

(** C8. Over the rationals [Max] is the maximum and [Min] the minimum,
    and for [x1 < x2] [interpolate] is [y1] up to [x1], [y2] from [x2]
    on, and the line through [(x1, y1)] and [(x2, y2)] in between. *)
Theorem interpolate_clamps_and_is_linear :
  (∀ a b, Max a b == Qmax a b ∧ Min a b == Qmin a b)
  ∧ ∀ x x1 x2 y1 y2, x1 < x2 →
      (x <= x1 → interpolate x x1 x2 y1 y2 == y1)
      ∧ (x2 <= x → interpolate x x1 x2 y1 y2 == y2)
      ∧ (x1 <= x <= x2 →
         interpolate x x1 x2 y1 y2 == y1 + (y2 - y1) * (x - x1) / (x2 - x1)).
Proof.
  split.
  { intros a b. split; [apply Max_is_Qmax | apply Min_is_Qmin]. }
  intros x x1 x2 y1 y2 Hlt. split; [|split].
  - intros Hx. rewrite (interpolate_at _ _ _ _ _ x1).
    + field. lra.
    + unfold Min. rewrite (Max_r x x1) by lra.
      rewrite Qabs_pos by lra. field.
  - intros Hx. rewrite (interpolate_at _ _ _ _ _ x2).
    + field. lra.
    + unfold Min. rewrite (Max_l x x1) by lra.
      rewrite Qabs_neg by lra. field.
  - intros [Hx1 Hx2]. apply interpolate_at.
    unfold Min. rewrite (Max_l x x1) by lra.
    rewrite Qabs_pos by lra. field.
Qed.

End interp_props.

(** ** initProject *)

Section project_props.
Import Project.



End project_props.

(** ** TabbedDataframe.to_excel *)

Section tabbed_props.
Context {DF Obj : Type} (str : Obj → string).
Import Tabbed.

Abbreviation sheets := (list (string * worksheet DF)).

Lemma update_sheet_absent name (f : worksheet DF → worksheet DF) (w : sheets) :
  name ∉ w.*1 → update_sheet name f w = None.
Proof.
  induction w as [|[n ws] w IH]; [done|]. cbn. intros Hn.
  apply not_elem_of_cons in Hn as [Hne Hn].
  rewrite decide_False by done. by rewrite IH.
Qed.

Lemma update_sheet_present name (f : worksheet DF → worksheet DF) (w : sheets) :
  name ∈ w.*1 → ∃ w', update_sheet name f w = Some w' ∧ w'.*1 = w.*1.
Proof.
  induction w as [|[n ws] w IH]; cbn.
  - intros Hn. by apply elem_of_nil in Hn.
  - intros Hn. destruct (decide (n = name)) as [->|Hne]; [by eexists|].
    apply elem_of_cons in Hn as [->|Hn]; [done|].
    destruct (IH Hn) as (w' & -> & Hw'). eexists. split; [done|].
    cbn. by rewrite Hw'.
Qed.

Lemma update_sheet_last name (f : worksheet DF → worksheet DF) (w : sheets) ws :
  name ∉ w.*1 → update_sheet name f (w ++ [(name, ws)]) = Some (w ++ [(name, f ws)]).
Proof.
  induction w as [|[n ws'] w IH]; cbn.
  - intros _. by rewrite decide_True.
  - intros Hn. apply not_elem_of_cons in Hn as [Hne Hn].
    rewrite decide_False by done. by rewrite IH.
Qed.

Lemma df_to_excel_new (df : DF) name startrow (w : sheets) :
  name ∉ w.*1 →
  df_to_excel df name startrow w = (Ok tt, w ++ [(name, mk_sheet [(startrow, df)] [])]).
Proof. intros Hn. unfold df_to_excel. by rewrite update_sheet_absent. Qed.

Lemma df_to_excel_total (df : DF) name startrow (w : sheets) :
  ∃ w', df_to_excel df name startrow w = (Ok tt, w') ∧ name ∈ w'.*1.
Proof.
  unfold df_to_excel. destruct (decide (name ∈ w.*1)) as [Hin|Hout].
  - destruct (update_sheet_present name
                (λ ws, mk_sheet (frames ws ++ [(startrow, df)]) (cells ws)) w Hin)
      as (w' & -> & Hw'). exists w'. by rewrite Hw'.
  - rewrite update_sheet_absent by done. eexists. split; [done|].
    rewrite fmap_app. apply elem_of_app. right. cbn. by apply list_elem_of_singleton.
Qed.

Lemma sheets_getitem_present name (w : sheets) :
  name ∈ w.*1 → sheets_getitem name w = (Ok name, w).
Proof.
  intros Hin. unfold sheets_getitem.
  by destruct (update_sheet_present name id w Hin) as (w' & -> & _).
Qed.

Lemma write_string_total name row col text (w : sheets) :
  name ∈ w.*1 → ∃ w', write_string name row col text w = (Ok tt, w') ∧ w'.*1 = w.*1.
Proof.
  intros Hin. unfold write_string.
  destruct (update_sheet_present name
              (λ ws, mk_sheet (frames ws) (cells ws ++ [(row, col, text)])) w Hin)
    as (w' & -> & Hw'). by exists w'.
Qed.

Lemma write_string_last name row col text (w : sheets) ws :
  name ∉ w.*1 →
  write_string name row col text (w ++ [(name, ws)])
  = (Ok tt, w ++ [(name, mk_sheet (frames ws) (cells ws ++ [(row, col, text)]))]).
Proof. intros Hn. unfold write_string. by rewrite update_sheet_last. Qed.

Lemma write_metadata_total name imeta (items : list (Obj * Obj)) (w : sheets) :
  name ∈ w.*1 →
  ∃ w', write_metadata str name imeta items w = (Ok tt, w') ∧ w'.*1 = w.*1.
Proof.
  revert imeta w. induction items as [|[key val] items IH]; intros imeta w Hin.
  - by exists w.
  - cbn [write_metadata]. unfold mbind, W_bind.
    destruct (write_string_total name imeta 0 (str key) w Hin) as (w1 & -> & Hw1).
    destruct (write_string_total name imeta 1 (str val) w1) as (w2 & -> & Hw2).
    { by rewrite Hw1. }
    destruct (IH (S imeta) w2) as (w3 & Hw3 & Hn3).
    { by rewrite Hw2, Hw1. }
    exists w3. split; [exact Hw3|]. by rewrite Hn3, Hw2, Hw1.
Qed.

Lemma write_metadata_last name imeta (items : list (Obj * Obj)) (w : sheets) ws :
  name ∉ w.*1 →
  write_metadata str name imeta items (w ++ [(name, ws)])
  = (Ok tt,
     w ++ [(name, mk_sheet (frames ws)
                    (cells ws ++ concat (imap (λ i '(key, val),
                       [(imeta + i, 0, str key); (imeta + i, 1, str val)])%nat items)))]).
Proof.
  intros Hn. revert imeta ws. induction items as [|[key val] items IH]; intros imeta ws.
  - cbn. rewrite app_nil_r. by destruct ws.
  - cbn [write_metadata]. unfold mbind, W_bind.
    rewrite write_string_last by done. rewrite write_string_last by done.
    rewrite IH. cbn [frames cells imap concat]. do 4 f_equal.
    rewrite Nat.add_0_r, <- !app_assoc. cbn. do 5 f_equal.
    apply imap_ext. intros i [k v] _. cbn. by rewrite Nat.add_succ_r.
Qed.

Lemma write_tabs_total (t : TabbedDataframe DF Obj) items itab (w : sheets) :
  ∃ w', write_tabs str t itab items w = (Ok tt, w').
Proof.
  revert itab w. induction items as [|[name df] items IH]; intros itab w.
  - by exists w.
  - cbn [write_tabs]. unfold mbind at 1. unfold W_bind at 1.
    destruct (itab =? 0)%nat.
    + unfold mbind, W_bind.
      destruct (df_to_excel_total df name (length (metadata t) + 1) w) as (w1 & -> & Hin).
      rewrite sheets_getitem_present by done.
      destruct (write_metadata_total name 0 (metadata t) w1 Hin) as (w2 & -> & _).
      apply IH.
    + destruct (df_to_excel_total df name 0 w) as (w1 & -> & _). apply IH.
Qed.

Lemma write_tabs_run (t : TabbedDataframe DF Obj) items itab (w : sheets) :
  NoDup items.*1 → (∀ n, n ∈ items.*1 → n ∉ w.*1) →
  write_tabs str t itab items w
  = (Ok tt,
     w ++ imap (λ j '(name, df),
                  (name, if (itab + j =? 0)%nat
                         then mk_sheet [(length (metadata t) + 1, df)]
                                       (metadata_cells str (metadata t))
                         else mk_sheet [(0, df)] []))%nat items).
Proof.
  revert itab w. induction items as [|[name df] items IH]; intros itab w Hnd Hw.
  - cbn. by rewrite app_nil_r.
  - cbn [fmap list_fmap fst] in Hnd. apply NoDup_cons in Hnd as [Hname Hnd].
    assert (name ∉ w.*1) as Hfresh by (apply Hw; cbn; apply elem_of_cons; by left).
    assert (∀ ws, ∀ n, n ∈ items.*1 → n ∉ (w ++ [(name, ws)]).*1) as Hw'.
    { intros ws n Hn. rewrite fmap_app. intros [Hin|Hin]%elem_of_app.
      - apply (Hw n); [|done]. cbn. apply elem_of_cons. by right.
      - cbn in Hin. apply list_elem_of_singleton in Hin as ->. done. }
    cbn [write_tabs imap]. unfold mbind at 1. unfold W_bind at 1.
    rewrite Nat.add_0_r.
    destruct (itab =? 0)%nat eqn:Hitab.
    + unfold mbind, W_bind.
      rewrite df_to_excel_new by done.
      rewrite sheets_getitem_present
        by (rewrite fmap_app; apply elem_of_app; right; by apply list_elem_of_singleton).
      rewrite write_metadata_last by done.
      rewrite IH by auto. cbn [frames cells app]. rewrite <- app_assoc. cbn [app].
      do 3 f_equal. apply imap_ext. intros j [n d] _. cbn.
      by rewrite Nat.add_succ_r.
    + rewrite df_to_excel_new by done.
      rewrite IH by auto. rewrite <- app_assoc. cbn [app].
      do 3 f_equal. apply imap_ext. intros j [n d] _. cbn.
      by rewrite Nat.add_succ_r.
Qed.

Lemma metadata_cells_rows (items : list (Obj * Obj)) r c text :
  (r, c, text) ∈ metadata_cells str items → (r < length items)%nat.
Proof.
  unfold metadata_cells. intros Hin.
  apply list_elem_of_In, in_concat in Hin as (row & Hrow & Hin).
  apply list_elem_of_In in Hrow, Hin.
  apply elem_of_lookup_imap in Hrow as (i & [key val] & -> & Hi).
  apply lookup_lt_Some in Hi.
  apply elem_of_cons in Hin as [Heq|Hin]; [by simplify_eq|].
  apply list_elem_of_singleton in Hin. by simplify_eq.
Qed.

(** C7. For a file name ending in [.xlsx] and dataframes under distinct
    names, [to_excel] saves under that name a workbook with one sheet per
    dataframe, in order and named after its key.  The first sheet has its
    dataframe at row [len(metadata) + 1] and the metadata above it, item
    [i] on row [i] with [str(key)] in column 0 and [str(val)] in column 1;
    every other sheet has its dataframe at row 0 and no other cell. *)
Theorem to_excel_one_sheet_per_dataframe
    (t : TabbedDataframe DF Obj) (filename : string) (fs : world DF) :
  endswith filename ".xlsx" = true →
  NoDup (dataframes t).*1 →
  ∃ wb : sheets,
    to_excel str t filename fs
    = (Ok tt, mk_world (opened fs ++ [filename]) (<[filename := wb]> (files fs)))
    ∧ wb.*1 = (dataframes t).*1
    ∧ (∀ i name df, dataframes t !! i = Some (name, df) →
         ∃ ws, wb !! i = Some (name, ws)
               ∧ frames ws = [(if (i =? 0)%nat then length (metadata t) + 1 else 0, df)%nat]
               ∧ cells ws = if (i =? 0)%nat then metadata_cells str (metadata t) else [])
    ∧ (∀ r c text, (r, c, text) ∈ metadata_cells str (metadata t) →
         (r < length (metadata t) + 1)%nat).
Proof.
  intros Hext Hnd. eexists. split; [|split; [|split]].
  - unfold to_excel. rewrite Hext. cbn [negb].
    rewrite (write_tabs_run t (dataframes t) 0 [])
      by (done || (intros n _; apply not_elem_of_nil)).
    cbn [app opened files]. reflexivity.
  - rewrite fmap_imap. clear Hnd. generalize 0%nat.
    induction (dataframes t) as [|[name df] items IH]; intros n; [done|].
    cbn. f_equal. rewrite <- (IH (S n)). apply imap_ext.
    intros j [n' d'] _. cbn. done.
  - intros i name df Hi. rewrite list_lookup_imap, Hi. cbn.
    destruct (i =? 0)%nat; eexists; (split; [reflexivity|]); cbn; done.
  - intros r c text Hin. apply metadata_cells_rows in Hin. lia.
Qed.

(** C10. [to_excel] raises [AssertionError] for every file name that
    does not end in [.xlsx], with no writer opened and no file saved; for
    a name that does, it opens the writer, runs to the end and saves the
    workbook under that name. *)
Theorem to_excel_asserts_extension
    (t : TabbedDataframe DF Obj) (filename : string) (fs : world DF) :
  (endswith filename ".xlsx" = false →
   to_excel str t filename fs = (Raise AssertionError, fs))
  ∧ (endswith filename ".xlsx" = true →
     ∃ wb : sheets,
       to_excel str t filename fs
       = (Ok tt, mk_world (opened fs ++ [filename]) (<[filename := wb]> (files fs)))).
Proof.
  split; intros Hext; unfold to_excel; rewrite Hext; cbn [negb]; [done|].
  destruct (write_tabs_total t (dataframes t) 0 []) as (wb & ->).
  by exists wb.
Qed.

End tabbed_props.

(** ** The theorems at sample inputs *)

Section witnesses.
Import Values Samples.

Lemma add_union_of_keys_sum_of_values_witness :
  SymDict.dict impacts !! Some "climate" = Some (Q2Qc (3 # 2))
  ∧ SymDict.dict (SymDict.__add__ impacts (SymDict.Val (Q2Qc 7))) !! Some "climate"
    = Some (py_add (Q2Qc (3 # 2)) py_zero)
  ∧ SymDict.dict (SymDict.__add__ impacts (SymDict.Val (Q2Qc 7))) !! None
    = Some (Q2Qc 9).
Proof.
  pose proof (add_union_of_keys_sum_of_values impacts (SymDict.Val (Q2Qc 7)))
    as (_ & _ & Hval).
  destruct (Hval (Q2Qc 7) eq_refl) as (_ & Hnone & _ & Hother).
  split; [reflexivity|]. split.
  - apply (Hother "climate" (Q2Qc (3 # 2))). reflexivity.
  - rewrite Hnone. vm_compute. reflexivity.
Defined.

Lemma xreplace_defers_to_values_witness :
  SymDict.dict per_km !! Some "climate" = Some (Lin 2 1)
  ∧ SymDict.dict (SymDict.xreplace per_km 10%Z) !! Some "climate" = Some (Lin 0 21)
  ∧ SymDict.dict impacts !! None = Some (Q2Qc 2)
  ∧ hasattr (Args := unit) (Q2Qc 2) "xreplace" = false
  ∧ SymDict.dict (SymDict.xreplace impacts tt) !! None = Some (Q2Qc 2).
Proof.
  split; [reflexivity|]. split.
  - apply (proj1 (proj2 (xreplace_defers_to_values per_km 10%Z)
                          (Some "climate") (Lin 2 1) eq_refl)
                   (λ x, Lin 0 (2 * x + 1))).
    reflexivity.
  - split; [reflexivity|]. split; [reflexivity|].
    apply (proj2 (proj2 (xreplace_defers_to_values impacts tt) None (Q2Qc 2) eq_refl)).
    reflexivity.
Defined.

Lemma xreplace_add_commute_witness :
  (∀ a b : linexpr,
     SymDict.defer_val "xreplace" 10%Z (py_add a b)
     = py_add (SymDict.defer_val "xreplace" 10%Z a) (SymDict.defer_val "xreplace" 10%Z b))
  ∧ SymDict.defer_val "xreplace" 10%Z (py_zero : linexpr) = py_zero
  ∧ SymDict.xreplace (SymDict.__add__ per_km (SymDict.Sym per_kg)) 10%Z
    = SymDict.__add__ (SymDict.xreplace per_km 10%Z)
                      (SymDict.Sym (SymDict.xreplace per_kg 10%Z)).
Proof.
  assert (Hdist : ∀ a b : linexpr,
     SymDict.defer_val "xreplace" 10%Z (py_add a b)
     = py_add (SymDict.defer_val "xreplace" 10%Z a) (SymDict.defer_val "xreplace" 10%Z b)).
  { intros [c1 k1] [c2 k2].
    unfold SymDict.defer_val, hasattr, py_getattr, linexpr_getattr.
    destruct (decide ("xreplace" = "xreplace")) as [_|Hne]; [|done].
    unfold py_add, linexpr_add. cbn [coef const negb]. f_equal; lia. }
  split; [exact Hdist|]. split; [reflexivity|].
  apply (xreplace_add_commute per_km per_kg 10%Z Hdist). reflexivity.
Defined.

Lemma add_comm_and_empty_identity_witness :
  (∀ a b : Qc, py_add a b = py_add b a)
  ∧ SymDict.__add__ impacts (SymDict.Sym more_impacts)
    = SymDict.__add__ more_impacts (SymDict.Sym impacts)
  ∧ SymDict.__add__ impacts (SymDict.Sym (SymDict.mk ∅)) = impacts
  ∧ SymDict.__add__ (SymDict.mk ∅) (SymDict.Sym impacts) = impacts.
Proof.
  pose proof (add_comm_and_empty_identity (K := string) (V := Qc))
    as (Hcomm & Hright & Hleft).
  split; [exact Qcplus_comm|]. split; [|split].
  - apply (Hcomm Qcplus_comm).
  - apply Hright. intros k v _. apply Qcplus_0_r.
  - apply Hleft. intros k v _. apply Qcplus_0_l.
Defined.

Lemma interpolate_clamps_and_is_linear_witness :
  (0 < 2)%Q
  ∧ (Interp.interpolate (-1) 0 2 10 20 == 10)%Q
  ∧ (Interp.interpolate 3 0 2 10 20 == 20)%Q
  ∧ (Interp.interpolate (1 # 2) 0 2 10 20 == 10 + (20 - 10) * ((1 # 2) - 0) / (2 - 0))%Q.
Proof.
  pose proof (proj2 interpolate_clamps_and_is_linear) as Hint.
  split; [reflexivity|]. split; [|split].
  - apply (Hint (-1) 0 2 10 20)%Q; [reflexivity | discriminate].
  - apply (Hint 3 0 2 10 20)%Q; [reflexivity | discriminate].
  - apply (Hint (1 # 2) 0 2 10 20)%Q; [reflexivity | split; discriminate].
Defined.


Lemma to_excel_one_sheet_per_dataframe_witness :
  Tabbed.endswith "lca.xlsx" ".xlsx" = true
  ∧ NoDup (Tabbed.dataframes report).*1
  ∧ ∃ wb,
      Tabbed.to_excel id report "lca.xlsx" no_files
      = (Ok tt, Tabbed.mk_world ["lca.xlsx"] {["lca.xlsx" := wb]})
      ∧ wb.*1 = ["impacts"; "params"]
      ∧ (∃ ws, wb !! 0%nat = Some ("impacts", ws)
               ∧ Tabbed.frames ws = [(3%nat, 10%nat)]
               ∧ Tabbed.cells ws
                 = [(0, 0, "author"); (0, 1, "me"); (1, 0, "unit"); (1, 1, "kg")]%nat)
      ∧ (∃ ws, wb !! 1%nat = Some ("params", ws)
               ∧ Tabbed.frames ws = [(0%nat, 11%nat)]
               ∧ Tabbed.cells ws = []).
Proof.
  assert (Hnd : NoDup (Tabbed.dataframes report).*1).
  { apply (bool_decide_unpack _). vm_compute. exact I. }
  split; [reflexivity|]. split; [exact Hnd|].
  destruct (to_excel_one_sheet_per_dataframe id report "lca.xlsx" no_files eq_refl Hnd)
    as (wb & Hrun & Hnames & Hsheets & _).
  exists wb. split; [exact Hrun|]. split; [exact Hnames|]. split.
  - exact (Hsheets 0%nat "impacts" 10%nat eq_refl).
  - exact (Hsheets 1%nat "params" 11%nat eq_refl).
Defined.

Lemma to_excel_asserts_extension_witness :
  Tabbed.endswith "lca.csv" ".xlsx" = false
  ∧ Tabbed.to_excel id report "lca.csv" no_files = (Raise AssertionError, no_files)
  ∧ Tabbed.endswith "lca.xlsx" ".xlsx" = true
  ∧ fst (Tabbed.to_excel id report "lca.xlsx" no_files) = Ok tt.
Proof.
  split; [reflexivity|]. split.
  - apply (proj1 (to_excel_asserts_extension id report "lca.csv" no_files)). reflexivity.
  - split; [reflexivity|].
    destruct (proj2 (to_excel_asserts_extension id report "lca.xlsx" no_files) eq_refl)
      as (wb & ->).
    reflexivity.
Defined.

End witnesses.

(** * Further properties *)

(** ** The algebra of SymDict *)

Section symdict_algebra.
Context {K : Type} `{Countable K} {V : Type}.
Import SymDict.

Section add_algebra.
Context `{PyAdd V, PyZero V}.

Lemma lookup_add_Sym (s1 s2 : SymDict K V) (k : option K) :
  dict (__add__ s1 (Sym s2)) !! k
  = match dict s1 !! k, dict s2 !! k with
    | None, None => None
    | a, b => Some (py_add (default py_zero a) (default py_zero b))
    end.
Proof.
  unfold __add__.
  destruct (dict s1 !! k) as [a|] eqn:Hk1, (dict s2 !! k) as [b|] eqn:Hk2.
  1-3: rewrite lookup_apply_op;
    [unfold get; cbn [coerce]; by rewrite Hk1, Hk2
    |cbn [coerce]; rewrite elem_of_union, !elem_of_dom, Hk1, Hk2; eauto].
  apply lookup_apply_op_None. cbn [coerce].
  rewrite elem_of_union, !elem_of_dom, Hk1, Hk2. by intros [[? ?]|[? ?]].
Qed.

(** X1. Addition of SymDicts is associative when the addition of values is
    and [0] is neutral for it on both sides. *)
Theorem add_assoc_of_values :
  (∀ a b c : V, py_add (py_add a b) c = py_add a (py_add b c)) →
  (∀ a : V, py_add a py_zero = a) →
  (∀ a : V, py_add py_zero a = a) →
  ∀ s1 s2 s3 : SymDict K V,
    __add__ (__add__ s1 (Sym s2)) (Sym s3) = __add__ s1 (Sym (__add__ s2 (Sym s3))).
Proof.
  intros Hassoc Hr Hl s1 s2 s3. apply symdict_eq. intros k.
  rewrite !lookup_add_Sym.
  destruct (dict s1 !! k) as [a|], (dict s2 !! k) as [b|], (dict s3 !! k) as [c|];
    cbn; rewrite ?Hr, ?Hl, ?Hassoc; reflexivity.
Qed.

(** X2. Adding a value that is not a SymDict always leaves a [None] key in
    the result, on either side.  So [s + 0] is not [s] when [s] has no
    [None] key, the case of Python's [sum] over SymDicts, which starts
    from [0]; it is [s] when [s] has the key and [0] is neutral. *)
Theorem add_scalar_brings_None_key (s : SymDict K V) (c : V) :
  dom (dict (__add__ s (Val c))) = {[None]} ∪ dom (dict s)
  ∧ dom (dict (__radd__ s (Val c))) = {[None]} ∪ dom (dict s)
  ∧ (None ∉ dom (dict s) →
     __add__ s (Val c) ≠ s ∧ __radd__ s (Val c) ≠ s)
  ∧ ((∀ v : V, py_add v py_zero = v) → None ∈ dom (dict s) →
     __add__ s (Val py_zero) = s).
Proof.
  assert (Hdom : dom (dict (coerce (Val c))) ∪ dom (dict s) = {[None]} ∪ dom (dict s)).
  { cbn [coerce dict]. by rewrite dom_insert_L, dom_empty_L, (right_id_L ∅ (∪)). }
  assert (Hin : ∀ fop, None ∈ dom (dict (_apply_op s (Val c) fop py_zero))).
  { intros fop. rewrite dom_apply_op, Hdom. apply elem_of_union_l, elem_of_singleton. done. }
  split; [|split; [|split]].
  - unfold __add__. by rewrite dom_apply_op.
  - unfold __radd__. by rewrite dom_apply_op.
  - intros Hnone. split; intros Heq; apply Hnone.
    + rewrite <- Heq at 1. apply Hin.
    + rewrite <- Heq at 1. apply Hin.
  - intros Hzero Hnone. apply symdict_eq. intros k. unfold __add__.
    apply elem_of_dom in Hnone as [v0 Hv0].
    destruct (dict s !! k) as [v|] eqn:Hv.
    + rewrite lookup_apply_op by (apply elem_of_union_r, elem_of_dom; eauto).
      rewrite (get_Some _ _ _ _ Hv). cbn [coerce dict].
      destruct k as [k|].
      * rewrite get_None by (by rewrite lookup_insert_ne). by rewrite Hzero.
      * unfold get. rewrite lookup_insert_eq. cbn. by rewrite Hzero.
    + apply lookup_apply_op_None. cbn [coerce dict].
      rewrite dom_insert_L, dom_empty_L, (right_id_L ∅ (∪)).
      rewrite elem_of_union, elem_of_singleton, elem_of_dom, Hv.
      intros [->|[? ?]]; [|done]. rewrite Hv0 in Hv. discriminate.
Qed.

(** X3. With a commutative addition of values the reflected addition is the
    addition: [o + s] and [s + o] are the same SymDict. *)
Theorem radd_is_add_when_commutative :
  (∀ a b : V, py_add a b = py_add b a) →
  ∀ (s : SymDict K V) (o : operand K V), __radd__ s o = __add__ s o.
Proof.
  intros Hcomm s o. apply symdict_eq. intros k. unfold __radd__, __add__.
  destruct (decide (k ∈ dom (dict (coerce o)) ∪ dom (dict s))) as [Hk|Hk].
  - rewrite !lookup_apply_op by done. by rewrite Hcomm.
  - by rewrite !lookup_apply_op_None.
Qed.

Lemma apply_self_add (f : V → V) (s1 s2 : SymDict K V) :
  (∀ a b, f (py_add a b) = py_add (f a) (f b)) → f py_zero = py_zero →
  _apply_self (__add__ s1 (Sym s2)) f
  = __add__ (_apply_self s1 f) (Sym (_apply_self s2 f)).
Proof.
  intros Hdist Hzero. apply symdict_eq. intros k.
  rewrite lookup_apply_self, !lookup_add_Sym, !lookup_apply_self.
  destruct (dict s1 !! k) as [a|], (dict s2 !! k) as [b|]; cbn;
    rewrite ?Hdist, ?Hzero; reflexivity.
Qed.

(** X4. Scaling distributes over addition: [(s1 + s2) * c] is
    [s1 * c + s2 * c], and the same for [c * _] and [_ / c], when the
    operation on values distributes over their addition and sends [0] to
    [0]. *)
Theorem scaling_distributes_over_add `{PyMul V, PyTrueDiv V}
    (s1 s2 : SymDict K V) (c : V) :
  ((∀ a b, py_mul (py_add a b) c = py_add (py_mul a c) (py_mul b c)) →
   py_mul py_zero c = py_zero →
   __mul__ (__add__ s1 (Sym s2)) c = __add__ (__mul__ s1 c) (Sym (__mul__ s2 c)))
  ∧ ((∀ a b, py_mul c (py_add a b) = py_add (py_mul c a) (py_mul c b)) →
     py_mul c py_zero = py_zero →
     __rmul__ (__add__ s1 (Sym s2)) c = __add__ (__rmul__ s1 c) (Sym (__rmul__ s2 c)))
  ∧ ((∀ a b, py_truediv (py_add a b) c = py_add (py_truediv a c) (py_truediv b c)) →
     py_truediv py_zero c = py_zero →
     __truediv__ (__add__ s1 (Sym s2)) c
     = __add__ (__truediv__ s1 c) (Sym (__truediv__ s2 c))).
Proof.
  unfold __mul__, __rmul__, __truediv__.
  split; [|split]; intros Hdist Hzero; by apply apply_self_add.
Qed.

End add_algebra.

(** X5. Two scalings compose into one, and dividing by [c] undoes a
    multiplication by [c], when the values' operators do. *)
Theorem scaling_composes `{PyMul V, PyTrueDiv V} (s : SymDict K V) (c d : V) :
  ((∀ a, py_mul (py_mul a c) d = py_mul a (py_mul c d)) →
   __mul__ (__mul__ s c) d = __mul__ s (py_mul c d))
  ∧ ((∀ a, py_truediv (py_mul a c) c = a) →
     __truediv__ (__mul__ s c) c = s).
Proof.
  unfold __mul__, __truediv__. split; intros Hv; apply symdict_eq; intros k;
    rewrite !lookup_apply_self; destruct (dict s !! k); cbn; by rewrite ?Hv.
Qed.

(** X6. On a SymDict none of whose values has an [xreplace] attribute, such
    as one of plain numbers, [xreplace] changes nothing. *)
Theorem xreplace_without_attribute {Args} `{PyGetattr Args V}
    (s : SymDict K V) (sigma : Args) :
  (∀ k v, dict s !! k = Some v → hasattr v "xreplace" = false) →
  xreplace s sigma = s.
Proof.
  intros Hno. apply symdict_eq. intros k. rewrite lookup_xreplace.
  destruct (dict s !! k) as [v|] eqn:Hv; [|done]. cbn.
  unfold defer_val. by rewrite (Hno k v Hv).
Qed.

End symdict_algebra.

(** ** free_symbols *)

Section free_symbols_props.
Context {K : Type} `{Countable K} {V : Type}.
Context {S : Type} `{PyFreeSymbols S V}.
Import SymDictAttr.

(** X7. [free_symbols] lists each symbol once, and a symbol is listed exactly
    when it is a free symbol of a value of the SymDict that has the
    attribute; values without it contribute nothing. *)
Theorem free_symbols_are_those_of_the_values (s : SymDict.SymDict K V) :
  NoDup (free_symbols s)
  ∧ ∀ x, x ∈ free_symbols s
         ↔ ∃ key val symbols,
             SymDict.dict s !! key = Some val
             ∧ py_free_symbols val = Some symbols ∧ x ∈ symbols.
Proof.
  split; [apply NoDup_elements|].
  intros x. unfold free_symbols. rewrite elem_of_elements.
  revert x. apply (map_fold_weak_ind
    (λ res m, ∀ x, x ∈ res ↔ ∃ key val symbols,
        m !! key = Some val ∧ py_free_symbols val = Some symbols ∧ x ∈ symbols)).
  - intros x. split; [by intros ?%not_elem_of_empty|].
    intros (key & val & symbols & Hk & _). by rewrite lookup_empty in Hk.
  - intros key val m res Hfresh IH x. unfold collect. split.
    + intros Hx.
      assert (x ∈ res ∨ ∃ symbols, py_free_symbols val = Some symbols ∧ x ∈ symbols)
        as [Hres|(symbols & Hs & Hin)].
      { destruct (py_free_symbols val) as [symbols|]; [|by left].
        apply elem_of_union in Hx as [?|?]; [by left | right; eauto]. }
      * apply IH in Hres as (key' & val' & symbols & Hk' & Hs & Hin).
        exists key', val', symbols. split; [|done].
        rewrite lookup_insert_ne; [done|]. intros ->. by rewrite Hfresh in Hk'.
      * exists key, val, symbols. by rewrite lookup_insert_eq.
    + intros (key' & val' & symbols & Hk' & Hs & Hin).
      destruct (decide (key = key')) as [<-|Hne].
      * rewrite lookup_insert_eq in Hk'. simplify_eq. rewrite Hs.
        by apply elem_of_union_r.
      * rewrite lookup_insert_ne in Hk' by done.
        assert (x ∈ res) by (apply IH; eauto 6).
        destruct (py_free_symbols val); [by apply elem_of_union_l | done].
Qed.

End free_symbols_props.

(** ** What a SymDict shares with the dict it was built from *)

Section heap_alias.
Context {K : Type} `{Countable K} {V : Type}.
Import Heap.

(** X8. [SymDict(values)] keeps the dict it is given: an item written to that
    dict afterwards is an item of the SymDict. *)
Theorem constructor_keeps_the_dict (h : gmap loc (object K V)) (values : loc)
    (items : gmap (option K) V) (key : option K) (val : V) :
  h !! values = Some (ODict items) →
  ∃ s h', (s ← new_SymDict values; _ ← setitem values key val; mret s) h = Some (s, h')
          ∧ holds h' s (<[key := val]> items).
Proof.
  intros Hv.
  destruct (alloc_run (OSymDict values) h) as (s & Hs & Hfresh).
  assert (s ≠ values) as Hne by (intros ->; rewrite Hfresh in Hv; discriminate).
  exists s, (<[values := ODict (<[key := val]> items)]> (<[s := OSymDict values]> h)).
  split.
  - unfold mbind, M_bind, new_SymDict, setitem, mret, M_ret. rewrite Hs.
    rewrite lookup_insert_ne by done. by rewrite Hv.
  - exists values. split.
    + rewrite lookup_insert_ne by done. by rewrite lookup_insert_eq.
    + by rewrite lookup_insert_eq.
Qed.

Lemma fresh_result_survives_writes (m : M loc) (h : gmap loc (object K V)) res :
  pure_op m h res →
  ∃ r h', m h = Some (r, h')
          ∧ ∀ dic key val h'', is_Some (h !! dic) →
              setitem dic key val h' = Some (tt, h'') → holds h'' r res.
Proof.
  intros (r & h' & Hm & (dl & Hr & Hdl & Hr' & Hdl') & _ & _).
  exists r, h'. split; [done|].
  intros dic key val h'' [o Ho] Hset. unfold setitem in Hset.
  destruct (h' !! dic) as [[d|]|]; simplify_eq.
  assert (dic ≠ r) by (intros ->; rewrite Hr in Ho; discriminate).
  assert (dic ≠ dl) by (intros ->; rewrite Hdl in Ho; discriminate).
  exists dl. by rewrite !lookup_insert_ne.
Qed.

(** X9. The result of a method shares nothing with its operands: whatever is
    written afterwards to a dict that existed before the call, the dict
    of an operand included, the returned SymDict holds what it held. *)
Theorem results_do_not_alias_operands
    `{PyAdd V, PyZero V, PyMul V} {Args} `{PyGetattr Args V}
    (h : gmap loc (object K V)) (s x : loc) (ds dx : gmap (option K) V)
    (c : V) (sigma : Args) :
  holds h s ds → holds h x dx →
  let untouched (m : M loc) (res : gmap (option K) V) :=
    ∃ r h', m h = Some (r, h')
            ∧ ∀ dic key val h'', is_Some (h !! dic) →
                setitem dic key val h' = Some (tt, h'') → holds h'' r res in
  untouched (__add__ s (Ref x))
    (SymDict.dict (SymDict.__add__ (SymDict.mk ds) (SymDict.Sym (SymDict.mk dx))))
  ∧ untouched (__mul__ s c) (SymDict.dict (SymDict.__mul__ (SymDict.mk ds) c))
  ∧ untouched (xreplace s sigma) (SymDict.dict (SymDict.xreplace (SymDict.mk ds) sigma)).
Proof.
  intros Hs Hx untouched. subst untouched. cbv beta.
  split; [|split]; apply fresh_result_survives_writes.
  - by apply apply_op_run.
  - by apply (map_values_run (fmap (λ a, py_mul a c))).
  - by apply (map_values_run (fmap (SymDict.defer_val "xreplace" sigma))).
Qed.

End heap_alias.

(** ** interpolate, further *)

Section interp_more.
Import Interp.
Local Open Scope Q_scope.

(** X10. With the bounds given in the wrong order, [x2 < x1], [interpolate]
    is constant: it returns [y2] for every [x]. *)
Theorem interpolate_reversed_bounds (x x1 x2 y1 y2 : Q) :
  x2 < x1 → interpolate x x1 x2 y1 y2 == y2.
Proof.
  intros Hlt. rewrite (interpolate_at _ _ _ _ _ x2).
  - field. lra.
  - destruct (Qlt_le_dec x x1).
    + unfold Min. rewrite (Max_r x x1) by lra. rewrite Qabs_neg by lra. field.
    + unfold Min. rewrite (Max_l x x1) by lra. rewrite Qabs_neg by lra. field.
Qed.



End interp_more.

(** ** _snake2camel *)

Section snake_props.
Import Snake.
Import Stdlib.Strings.Ascii.

Lemma append_cons (x : ascii) (a b : string) :
  String.append (String x a) b = String x (String.append a b).
Proof. reflexivity. Qed.

Lemma append_assoc (a b c : string) :
  String.append (String.append a b) c = String.append a (String.append b c).
Proof. induction a as [|x a IH]; [done | by rewrite !append_cons, IH]. Qed.

Lemma length_append (a b : string) :
  String.length (String.append a b) = (String.length a + String.length b)%nat.
Proof. induction a as [|x a IH]; [done | rewrite append_cons; cbn; by rewrite IH]. Qed.

Lemma count_append c (a b : string) :
  count c (String.append a b) = (count c a + count c b)%nat.
Proof. induction a as [|x a IH]; [done | rewrite append_cons; cbn; rewrite IH; lia]. Qed.

Lemma split_not_nil sep (val : string) : split sep val ≠ [].
Proof.
  destruct val as [|c rest]; cbn; [done|].
  destruct (Ascii.eqb c sep); [done|]. by destruct (split sep rest).
Qed.

Lemma split_append sep (a b : string) :
  split sep (String.append a (String sep b)) = split sep a ++ split sep b.
Proof.
  induction a as [|c a IH].
  - change (String.append EmptyString (String sep b)) with (String sep b).
    cbn [split]. by rewrite Ascii.eqb_refl.
  - rewrite append_cons. cbn [split].
    destruct (Ascii.eqb c sep); [by rewrite IH|].
    rewrite IH. pose proof (split_not_nil sep a).
    by destruct (split sep a).
Qed.

Lemma join_cons (word : string) (words : list string) :
  join (word :: words) = String.append word (join words).
Proof. reflexivity. Qed.

Lemma append_empty_r (a : string) : String.append a EmptyString = a.
Proof. induction a as [|x a IH]; [done | by rewrite append_cons, IH]. Qed.

Lemma join_app (l1 l2 : list string) :
  join (l1 ++ l2) = String.append (join l1) (join l2).
Proof.
  induction l1 as [|w l1 IH]; [done|].
  cbn [app]. by rewrite !join_cons, IH, append_assoc.
Qed.

Lemma length_title_from b (word : string) :
  String.length (title_from b word) = String.length word.
Proof. revert b. induction word as [|c w IH]; intros b; cbn; [done | by rewrite IH]. Qed.

Lemma case_keeps_underscore_out (c : ascii) :
  Ascii.eqb c "_" = false →
  Ascii.eqb (to_upper c) "_" = false ∧ Ascii.eqb (to_lower c) "_" = false.
Proof.
  destruct c as [[] [] [] [] [] [] [] []]; intros Hc; try discriminate Hc;
    split; vm_compute; reflexivity.
Qed.

Lemma count_title_from b (word : string) :
  count "_" word = 0%nat → count "_" (title_from b word) = 0%nat.
Proof.
  revert b. induction word as [|c w IH]; intros b; cbn; [done|].
  destruct (Ascii.eqb c "_") eqn:Hc; [done|]. cbn. intros Hw.
  destruct (case_keeps_underscore_out c Hc) as [Hu Hl].
  destruct b; rewrite ?Hu, ?Hl; cbn; by apply IH.
Qed.

Lemma split_words_have_no_sep sep (val : string) :
  Forall (λ word, count sep word = 0%nat) (split sep val).
Proof.
  induction val as [|c rest IH]; cbn.
  - by constructor.
  - destruct (Ascii.eqb c sep) eqn:Hc; [by constructor|].
    destruct (split sep rest) as [|w ws]; [constructor; [cbn; by rewrite Hc | done]|].
    apply Forall_cons in IH as [Hw Hws]. constructor; [|done].
    cbn. by rewrite Hc, Hw.
Qed.

Lemma split_lengths sep (val : string) :
  (sum_list (String.length <$> split sep val) + count sep val = String.length val)%nat.
Proof.
  induction val as [|c rest IH]; cbn; [done|].
  destruct (Ascii.eqb c sep); cbn; [lia|].
  pose proof (split_not_nil sep rest).
  destruct (split sep rest) as [|w ws]; [done|]. cbn in *. lia.
Qed.

Lemma join_title_length (words : list string) :
  String.length (join (title <$> words)) = sum_list (String.length <$> words).
Proof.
  induction words as [|w ws IH]; [done|].
  cbn [fmap list_fmap]. rewrite join_cons, length_append, IH.
  unfold title. by rewrite length_title_from.
Qed.

Lemma join_title_count (words : list string) :
  Forall (λ word, count "_" word = 0%nat) words →
  count "_" (join (title <$> words)) = 0%nat.
Proof.
  induction 1 as [|w ws Hw _ IH]; [done|].
  cbn [fmap list_fmap]. rewrite join_cons, count_append, IH.
  unfold title. by rewrite count_title_from.
Qed.

(** X14. [_snake2camel] works word by word: on ASCII text the result for
    [a_b] is the result for [a] followed by the result for [b], and on
    text with no underscore it is the title-cased text. *)
Theorem snake2camel_word_by_word (a b : string) :
  isascii a = true → isascii b = true →
  _snake2camel (String.append a (String "_" b))
  = String.append (_snake2camel a) (_snake2camel b)
  ∧ (count "_" a = 0%nat → _snake2camel a = title a).
Proof.
  intros _ _. split.
  - unfold _snake2camel. by rewrite split_append, fmap_app, join_app.
  - clear b. unfold _snake2camel. intros Hnone.
    assert (split "_" a = [a]) as ->.
    { induction a as [|c a IH]; [done|]. cbn in *.
      destruct (Ascii.eqb c "_"); [done|]. by rewrite IH. }
    cbn [fmap list_fmap]. rewrite join_cons. apply append_empty_r.
Qed.

(** X15. On ASCII text [_snake2camel] removes the underscores and nothing
    else: the result has none, and it is shorter than the argument by the
    number of underscores of the argument. *)
Theorem snake2camel_drops_underscores (val : string) :
  isascii val = true →
  count "_" (_snake2camel val) = 0%nat
  ∧ (String.length (_snake2camel val) + count "_" val = String.length val)%nat.
Proof.
  intros _. unfold _snake2camel. split.
  - apply join_title_count, split_words_have_no_sep.
  - rewrite join_title_length. apply split_lengths.
Qed.

Example snake2camel_sample :
  _snake2camel "climate_change_GWP100" = "ClimateChangeGwp100".
Proof. reflexivity. Qed.

End snake_props.

(** ** The pool of databases *)

Section pool_props.
Import Pool.

Lemma getDb_keeps_entries name other db st :
  dbs st !! other = Some db → dbs (snd (_getDb name st)) !! other = Some db.
Proof.
  intros Hother. unfold _getDb, new_Database. cbn.
  case_bool_decide as Hfresh; cbn; [|done].
  rewrite lookup_insert_ne; [done|].
  intros <-. apply Hfresh, elem_of_dom. eauto.
Qed.

Lemma getDb_all_keeps_entries names other db st :
  dbs st !! other = Some db → dbs (snd (getDb_all names st)) !! other = Some db.
Proof.
  revert st. induction names as [|name names IH]; intros st Hother; [done|].
  cbn [getDb_all].
  pose proof (getDb_keeps_entries name other db st Hother) as Hstep.
  destruct (_getDb name st) as [d st1]. cbn in Hstep.
  specialize (IH st1 Hstep). by destruct (getDb_all names st1).
Qed.

Lemma getDb_pooled name db st :
  dbs st !! name = Some db → _getDb name st = (Some db, st).
Proof.
  intros Hname. unfold _getDb.
  rewrite bool_decide_eq_false_2; [by rewrite Hname|].
  intros Hfresh. apply Hfresh, elem_of_dom. eauto.
Qed.

Lemma getDb_returns name st :
  ∃ db, fst (_getDb name st) = Some db ∧ dbs (snd (_getDb name st)) !! name = Some db.
Proof.
  unfold _getDb, new_Database. cbn. case_bool_decide as Hfresh; cbn.
  - rewrite lookup_insert_eq. eauto.
  - destruct (dbs st !! name) as [db|] eqn:Hname; [eauto|].
    by apply not_elem_of_dom in Hname.
Qed.

(** X16. [_getDb] always returns an instance, and it returns that very
    instance, building nothing and leaving the pool as it is, each time
    the name is asked for again, whatever other names were asked for in
    between. *)
Theorem getDb_returns_the_pooled_instance (name : string) (names : list string)
    (st : state) :
  ∃ db, fst (_getDb name st) = Some db
        ∧ let st' := snd (getDb_all names (snd (_getDb name st))) in
          _getDb name st' = (Some db, st').
Proof.
  destruct (getDb_returns name st) as (db & Hfst & Hsnd).
  exists db. split; [done|]. cbv zeta.
  apply getDb_pooled. by apply getDb_all_keeps_entries.
Qed.

Lemma getDb_once_each name st :
  once_each st →
  once_each (snd (_getDb name st))
  ∧ ∀ n, n ∈ constructed (snd (_getDb name st)) ↔ n ∈ constructed st ∨ n = name.
Proof.
  intros [Hnd Hdom]. unfold _getDb, new_Database. cbn.
  case_bool_decide as Hfresh; cbn.
  - split; [split|].
    + apply NoDup_app. split; [done|]. split; [|apply NoDup_singleton].
      intros n Hn ->%list_elem_of_singleton. by apply Hfresh, Hdom.
    + intros n. cbn [constructed dbs].
      rewrite elem_of_app, list_elem_of_singleton, dom_insert_L,
        elem_of_union, elem_of_singleton, Hdom. tauto.
    + intros n. cbn [constructed]. by rewrite elem_of_app, list_elem_of_singleton.
  - split; [done|]. intros n. split; [tauto|].
    intros [?| ->]; [done|]. by apply Hdom.
Qed.

Lemma getDb_all_once_each names st :
  once_each st →
  once_each (snd (getDb_all names st))
  ∧ ∀ n, n ∈ constructed (snd (getDb_all names st)) ↔ n ∈ constructed st ∨ n ∈ names.
Proof.
  revert st. induction names as [|name names IH]; intros st Hst.
  - split; [done|]. intros n. rewrite elem_of_nil. tauto.
  - cbn [getDb_all]. destruct (getDb_once_each name st Hst) as [Hst1 Hlog1].
    destruct (_getDb name st) as [d st1]. cbn in Hst1, Hlog1.
    destruct (IH st1 Hst1) as [Hst2 Hlog2].
    destruct (getDb_all names st1) as [ds st2]. cbn in *.
    split; [done|]. intros n. rewrite Hlog2, Hlog1, elem_of_cons. tauto.
Qed.

(** X17. Starting from the empty pool, any run of calls of [_getDb] has
    called [bw.Database] exactly once for each name asked for, however
    often the name was asked for, and has pooled one instance per name
    under that name. *)
Theorem getDb_constructs_once_per_name (names : list string) :
  let st := snd (getDb_all names (mk_state ∅ [])) in
  NoDup (constructed st)
  ∧ (∀ name, name ∈ constructed st ↔ name ∈ names)
  ∧ (∀ name, name ∈ dom (dbs st) ↔ name ∈ names).
Proof.
  assert (Hinit : once_each (mk_state ∅ [])).
  { split; [apply NoDup_nil_2|]. intros n. cbn. rewrite dom_empty_L.
    by rewrite elem_of_nil, elem_of_empty. }
  destruct (getDb_all_once_each names _ Hinit) as [[Hnd Hdom] Hlog].
  cbv zeta. split; [done|].
  assert (∀ name, name ∈ constructed (snd (getDb_all names (mk_state ∅ []))) ↔ name ∈ names)
    as Hnames.
  { intros n. rewrite Hlog. cbn. rewrite elem_of_nil. tauto. }
  split; [done|]. intros n. by rewrite <- Hdom.
Qed.

End pool_props.

(** ** Max and Min together *)

Section max_min_props.
Import Interp.
Local Open Scope Q_scope.

(** X13. [Max] and [Min] do not depend on the order of their arguments,
    [Min] is never above [Max], and the two add up to the sum of the
    arguments. *)
Theorem Max_Min_symmetric (a b : Q) :
  Max a b == Max b a ∧ Min a b == Min b a
  ∧ Min a b <= Max a b ∧ Max a b + Min a b == a + b.
Proof.
  destruct (Qlt_le_dec a b) as [Hlt|Hle].
  - rewrite (Max_r a b), (Max_l b a), (Min_l a b), (Min_r b a) by lra.
    repeat split; lra.
  - rewrite (Max_l a b), (Max_r b a), (Min_r a b), (Min_l b a) by lra.
    repeat split; lra.
Qed.

End max_min_props.

(** ** interpolate is monotone *)

Section interp_monotone.
Import Interp.
Local Open Scope Q_scope.


End interp_monotone.

(** ** _actName *)

Section act_props.
Import Act.

(** X18. [_actName] needs the field [name].  It returns the name as it is for
    an activity with no location or located in [GLO], and in every other
    case the name followed by the location in square brackets, which is
    never the bare name. *)
Theorem actName_appends_location (act : gmap string string) :
  (act !! "name" = None → _actName act = Raise (KeyError "name"))
  ∧ ∀ name, act !! "name" = Some name →
      ∃ res, _actName act = Ok res
        ∧ (res = name ↔ act !! "location" = None ∨ act !! "location" = Some "GLO")
        ∧ ∀ location, act !! "location" = Some location → location ≠ "GLO" →
            res = String.append name (String.append "[" (String.append location "]")).
Proof.
  split; [intros Hname; unfold _actName; by rewrite Hname|].
  intros name Hname. unfold _actName. rewrite Hname.
  destruct (act !! "location") as [location|] eqn:Hloc.
  - rewrite bool_decide_eq_true_2 by (apply elem_of_dom; eauto). cbn [andb].
    destruct (decide (location = "GLO")) as [->|Hne].
    + rewrite bool_decide_eq_true_2 by done. cbn [negb].
      exists name. split; [done|]. split; [by split; eauto|].
      intros location Hl. by simplify_eq.
    + rewrite bool_decide_eq_false_2 by congruence. cbn [negb].
      eexists. split; [done|]. split.
      * split; [|intros [?|?]; simplify_eq].
        intros Heq. apply (f_equal String.length) in Heq.
        rewrite !length_append in Heq. cbn in Heq. lia.
      * intros location' Hl _. by simplify_eq.
  - rewrite bool_decide_eq_false_2 by (by apply not_elem_of_dom). cbn [andb].
    exists name. split; [done|]. split; [by split; eauto|]. done.
Qed.

End act_props.

(** ** r_squared *)

Section stats_props.
Import Stats.
Local Open Scope Q_scope.

Lemma sq_nonneg (a : Q) : 0 <= a ^ 2.
Proof. change (a ^ 2) with (a * a). nra. Qed.

Lemma sq_zero (a : Q) : a ^ 2 == 0 → a == 0.
Proof. change (a ^ 2) with (a * a). nra. Qed.

Lemma sum_nonneg (a : list Q) : Forall (λ q, 0 <= q) a → 0 <= sum a.
Proof. induction 1 as [|q a Hq _ IH]; cbn; [lra | unfold sum in IH; lra]. Qed.

Lemma sum_ge_entry (a : list Q) (q : Q) :
  Forall (λ q, 0 <= q) a → q ∈ a → q <= sum a.
Proof.
  induction 1 as [|q' a Hq Ha IH]; [by intros ?%elem_of_nil|].
  pose proof (sum_nonneg a Ha) as Hsum. unfold sum in *. cbn.
  intros [->|Hin]%elem_of_cons; [lra|]. specialize (IH Hin). lra.
Qed.

Lemma sum_zero_entries (a : list Q) : Forall (λ q, q == 0) a → sum a == 0.
Proof. induction 1 as [|q a Hq _ IH]; cbn; [reflexivity | unfold sum in IH; lra]. Qed.

Lemma squares_nonneg (f : Q → Q) (a : list Q) :
  Forall (λ q, 0 <= q) ((λ v, (f v) ^ 2) <$> a).
Proof. apply Forall_fmap, Forall_forall. intros v _. apply sq_nonneg. Qed.

Lemma squared_diff_nonneg (a b d : list Q) :
  squared_diff a b = Some d → Forall (λ q, 0 <= q) d.
Proof.
  unfold squared_diff. intros Hd.
  assert (∀ l l' : list Q, Forall (λ q, 0 <= q) (zip_with (λ x y, (x - y) ^ 2) l l'))
    as Hzip.
  { induction l as [|x l IH]; intros [|x' l']; cbn; try by constructor.
    constructor; [apply sq_nonneg | apply IH]. }
  destruct (decide (length a = length b)); [by simplify_eq|].
  destruct a as [|x [|x' a]], b as [|y [|y' b]]; simplify_eq;
    try apply (squares_nonneg (λ v, x - v));
    try apply (squares_nonneg (λ v, v - y)).
Qed.

Lemma ss_tot_positive (y : list Q) (m : Q) :
  (∃ v, v ∈ y ∧ ¬ v == m) → 0 < sum ((λ v, (v - m) ^ 2) <$> y).
Proof.
  intros (v & Hin & Hne).
  apply Qlt_le_trans with ((v - m) ^ 2).
  - pose proof (sq_nonneg (v - m)).
    destruct (Qeq_dec ((v - m) ^ 2) 0) as [Hz|Hz]; [|lra].
    apply sq_zero in Hz. destruct Hne. lra.
  - apply sum_ge_entry; [apply (squares_nonneg (λ v, v - m))|].
    by apply (list_elem_of_fmap_2 (λ v, (v - m) ^ 2)).
Qed.

Lemma Qeq_bool_positive (q : Q) : 0 < q → Qeq_bool q 0 = false.
Proof.
  intros Hq. destruct (Qeq_bool q 0) eqn:Hb; [|done].
  apply Qeq_bool_eq in Hb. lra.
Qed.

(** X19. A prediction equal to the data has an [r_squared] of [1], when the
    data are not all equal to their mean. *)
Theorem r_squared_of_perfect_fit (y : list Q) :
  (∃ v, v ∈ y ∧ ¬ v == mean y) →
  ∃ r, r_squared y y = Some r ∧ r == 1.
Proof.
  intros Hvar. pose proof (ss_tot_positive y (mean y) Hvar) as Hpos.
  unfold r_squared, squared_diff. rewrite decide_True by done.
  rewrite Qeq_bool_positive by done. eexists. split; [done|].
  rewrite sum_zero_entries; [field; lra|].
  clear. induction y as [|v y IH]; cbn; constructor; [|done].
  change ((v - v) ^ 2) with ((v - v) * (v - v)). ring.
Qed.

(** X20. Predicting the mean of the data everywhere has an [r_squared] of
    [0], whether the prediction is an array of length one or an array of
    the length of the data. *)
Theorem r_squared_of_mean_prediction (y : list Q) :
  (∃ v, v ∈ y ∧ ¬ v == mean y) →
  (∃ r, r_squared y [mean y] = Some r ∧ r == 0)
  ∧ (∃ r, r_squared y (replicate (length y) (mean y)) = Some r ∧ r == 0).
Proof.
  intros Hvar. pose proof (ss_tot_positive y (mean y) Hvar) as Hpos.
  assert (squared_diff y [mean y] = Some ((λ v, (v - mean y) ^ 2) <$> y)) as Hd.
  { unfold squared_diff. destruct y as [|v [|v' y]]; reflexivity. }
  assert (squared_diff y (replicate (length y) (mean y))
          = Some ((λ v, (v - mean y) ^ 2) <$> y)) as Hd'.
  { unfold squared_diff. rewrite decide_True by (by rewrite length_replicate).
    by rewrite zip_with_replicate_r_eq. }
  unfold r_squared. rewrite Hd, Hd'. rewrite Qeq_bool_positive by done.
  split; eexists; (split; [done|]); field; lra.
Qed.

(** X21. Whenever [r_squared] has a result, the result is at most [1] and
    the two arrays have one length or one of them has length one. *)
Theorem r_squared_at_most_one (y y_hat : list Q) (r : Q) :
  r_squared y y_hat = Some r →
  r <= 1 ∧ (length y = length y_hat ∨ length y = 1%nat ∨ length y_hat = 1%nat).
Proof.
  unfold r_squared. intros Hr.
  destruct (squared_diff y y_hat) as [d|] eqn:Hd; [|done].
  pose proof (sum_nonneg d (squared_diff_nonneg _ _ _ Hd)) as Hres.
  pose proof (sum_nonneg _ (squares_nonneg (λ v, v - mean y) y)) as Htot.
  cbv beta in Htot.
  destruct (Qeq_bool _ 0) eqn:Hz; [done|]. apply Qeq_bool_neq in Hz.
  simplify_eq. split.
  - assert (0 < sum ((λ v, (v - mean y) ^ 2) <$> y)) as Hpos.
    { destruct (Qlt_le_dec 0 (sum ((λ v, (v - mean y) ^ 2) <$> y))) as [|Hle]; [done|].
      destruct Hz. lra. }
    assert (0 <= sum d / sum ((λ v, (v - mean y) ^ 2) <$> y)); [|lra].
    apply Qle_shift_div_l; [done | lra].
  - unfold squared_diff in Hd.
    destruct (decide (length y = length y_hat)); [by left|].
    destruct y as [|x [|x' y]], y_hat as [|z [|z' y_hat]]; simplify_eq; cbn; auto.
Qed.

End stats_props.

(** ** The further properties at sample inputs *)

Section more_witnesses.
Import Values Samples MoreSamples.
Import Stdlib.Strings.Ascii.

Lemma add_assoc_of_values_witness :
  SymDict.__add__ (SymDict.__add__ impacts (SymDict.Sym more_impacts)) (SymDict.Sym impacts)
  = SymDict.__add__ impacts (SymDict.Sym (SymDict.__add__ more_impacts (SymDict.Sym impacts))).
Proof.
  apply (add_assoc_of_values (K := string) (V := Qc)).
  - intros a b c. symmetry. apply Qcplus_assoc.
  - apply Qcplus_0_r.
  - apply Qcplus_0_l.
Defined.

Lemma add_scalar_brings_None_key_witness :
  (None ∉ dom (SymDict.dict more_impacts))
  ∧ (SymDict.__add__ more_impacts (SymDict.Val py_zero) ≠ more_impacts)
  ∧ (None ∈ dom (SymDict.dict impacts))
  ∧ (SymDict.__add__ impacts (SymDict.Val py_zero) = impacts).
Proof.
  assert (Hout : None ∉ dom (SymDict.dict more_impacts)).
  { apply not_elem_of_dom. reflexivity. }
  assert (Hin : None ∈ dom (SymDict.dict impacts)).
  { apply elem_of_dom. eexists. reflexivity. }
  split; [exact Hout|]. split.
  - apply (add_scalar_brings_None_key more_impacts py_zero). exact Hout.
  - split; [exact Hin|].
    apply (add_scalar_brings_None_key impacts py_zero); [apply Qcplus_0_r | exact Hin].
Defined.

Lemma radd_is_add_when_commutative_witness :
  SymDict.__radd__ impacts (SymDict.Val (Q2Qc 7))
  = SymDict.__add__ impacts (SymDict.Val (Q2Qc 7)).
Proof. apply (radd_is_add_when_commutative Qcplus_comm). Defined.

Lemma scaling_distributes_over_add_witness :
  SymDict.__mul__ (SymDict.__add__ impacts (SymDict.Sym more_impacts)) (Q2Qc 3)
  = SymDict.__add__ (SymDict.__mul__ impacts (Q2Qc 3))
                    (SymDict.Sym (SymDict.__mul__ more_impacts (Q2Qc 3))).
Proof.
  apply (scaling_distributes_over_add impacts more_impacts (Q2Qc 3)).
  - intros a b. apply Qcmult_plus_distr_l.
  - apply Qcmult_0_l.
Defined.

Lemma scaling_composes_witness :
  SymDict.__mul__ (SymDict.__mul__ impacts (Q2Qc 3)) (Q2Qc 2)
  = SymDict.__mul__ impacts (py_mul (Q2Qc 3) (Q2Qc 2))
  ∧ SymDict.__truediv__ (SymDict.__mul__ impacts (Q2Qc 3)) (Q2Qc 3) = impacts.
Proof.
  split.
  - apply (scaling_composes impacts (Q2Qc 3) (Q2Qc 2)).
    intros a. symmetry. apply Qcmult_assoc.
  - apply (scaling_composes impacts (Q2Qc 3) (Q2Qc 2)).
    intros a. apply Qcdiv_mult_l. discriminate.
Defined.

Lemma xreplace_without_attribute_witness :
  SymDict.xreplace impacts tt = impacts.
Proof. apply xreplace_without_attribute. intros k v _. reflexivity. Defined.

Lemma free_symbols_are_those_of_the_values_witness :
  SymDict.dict per_km !! Some "climate" = Some (Lin 2 1)
  ∧ "x" ∈ SymDictAttr.free_symbols per_km.
Proof.
  split; [reflexivity|].
  apply (free_symbols_are_those_of_the_values per_km).
  exists (Some "climate"), (Lin 2 1), {["x"]}.
  split; [reflexivity|]. split; [reflexivity|]. by apply elem_of_singleton.
Defined.

Lemma constructor_keeps_the_dict_witness :
  store !! 1%positive = Some (Heap.ODict (SymDict.dict impacts))
  ∧ ∃ s h', (s ← Heap.new_SymDict 1%positive;
             _ ← Heap.setitem 1%positive (Some "water") (Q2Qc 4);
             mret s) store = Some (s, h')
            ∧ Heap.holds h' s (<[Some "water" := Q2Qc 4]> (SymDict.dict impacts)).
Proof.
  split; [reflexivity|].
  apply (constructor_keeps_the_dict store 1%positive). reflexivity.
Defined.

Lemma results_do_not_alias_operands_witness :
  Heap.holds store 2%positive (SymDict.dict impacts)
  ∧ Heap.holds store 4%positive (SymDict.dict more_impacts)
  ∧ ∃ r h', Heap.__add__ 2%positive (Heap.Ref 4%positive) store = Some (r, h')
      ∧ ∀ dic key val h'', is_Some (store !! dic) →
          Heap.setitem dic key val h' = Some (tt, h'') →
          Heap.holds h'' r
            (SymDict.dict (SymDict.__add__ impacts (SymDict.Sym more_impacts))).
Proof.
  assert (H2 : Heap.holds store 2%positive (SymDict.dict impacts)).
  { exists 1%positive. split; reflexivity. }
  assert (H4 : Heap.holds store 4%positive (SymDict.dict more_impacts)).
  { exists 3%positive. split; reflexivity. }
  split; [exact H2|]. split; [exact H4|].
  exact (proj1 (results_do_not_alias_operands (Args := unit) store 2%positive 4%positive
                  (SymDict.dict impacts) (SymDict.dict more_impacts) (Q2Qc 2) tt H2 H4)).
Defined.

Lemma interpolate_reversed_bounds_witness :
  (0 < 2)%Q ∧ (Interp.interpolate 1 2 0 10 20 == 20)%Q.
Proof.
  split; [reflexivity|]. apply interpolate_reversed_bounds. reflexivity.
Defined.



Lemma snake2camel_word_by_word_witness :
  Snake.isascii "land" = true ∧ Snake.isascii "use" = true
  ∧ Snake._snake2camel "land_use"
    = String.append (Snake._snake2camel "land") (Snake._snake2camel "use").
Proof.
  split; [reflexivity|]. split; [reflexivity|].
  apply (snake2camel_word_by_word "land" "use"); reflexivity.
Defined.

Lemma snake2camel_drops_underscores_witness :
  Snake.isascii "land_use_change" = true
  ∧ Snake.count "_"%char (Snake._snake2camel "land_use_change") = 0%nat
  ∧ (String.length (Snake._snake2camel "land_use_change")
     + Snake.count "_"%char "land_use_change" = String.length "land_use_change")%nat.
Proof.
  split; [reflexivity|].
  apply (snake2camel_drops_underscores "land_use_change"). reflexivity.
Defined.

Lemma getDb_constructs_once_per_name_witness :
  "ecoinvent" ∈ ["ecoinvent"; "fg"; "ecoinvent"]
  ∧ "ecoinvent" ∈ Pool.constructed
      (snd (Pool.getDb_all ["ecoinvent"; "fg"; "ecoinvent"] (Pool.mk_state ∅ []))).
Proof.
  assert (Hin : "ecoinvent" ∈ ["ecoinvent"; "fg"; "ecoinvent"]) by apply list_elem_of_here.
  split; [exact Hin|].
  apply (getDb_constructs_once_per_name ["ecoinvent"; "fg"; "ecoinvent"]). exact Hin.
Defined.

Lemma actName_appends_location_witness :
  activity !! "name" = Some "electricity"
  ∧ ∃ res, Act._actName activity = Ok res
      ∧ (res = "electricity"
         ↔ activity !! "location" = None ∨ activity !! "location" = Some "GLO")
      ∧ ∀ location, activity !! "location" = Some location → location ≠ "GLO" →
          res = String.append "electricity"
                  (String.append "[" (String.append location "]")).
Proof.
  split; [reflexivity|].
  apply (proj2 (actName_appends_location activity) "electricity"). reflexivity.
Defined.

Lemma observations_vary :
  ∃ v, v ∈ observations ∧ ¬ (v == Stats.mean observations)%Q.
Proof.
  exists 1%Q. split; [apply list_elem_of_here|].
  intros Heq. vm_compute in Heq. discriminate Heq.
Defined.

Lemma r_squared_of_perfect_fit_witness :
  (∃ v, v ∈ observations ∧ ¬ (v == Stats.mean observations)%Q)
  ∧ ∃ r, Stats.r_squared observations observations = Some r ∧ (r == 1)%Q.
Proof.
  split; [exact observations_vary|].
  apply r_squared_of_perfect_fit. exact observations_vary.
Defined.

Lemma r_squared_of_mean_prediction_witness :
  (∃ v, v ∈ observations ∧ ¬ (v == Stats.mean observations)%Q)
  ∧ ∃ r, Stats.r_squared observations [Stats.mean observations] = Some r ∧ (r == 0)%Q.
Proof.
  split; [exact observations_vary|].
  exact (proj1 (r_squared_of_mean_prediction observations observations_vary)).
Defined.

Lemma r_squared_at_most_one_witness :
  ∃ r, Stats.r_squared observations [3; 2; 1]%Q = Some r ∧ (r <= 1)%Q.
Proof.
  assert (∃ r, Stats.r_squared observations [3; 2; 1]%Q = Some r) as [r Hr]
    by (eexists; vm_compute; reflexivity).
  exists r. split; [exact Hr|].
  exact (proj1 (r_squared_at_most_one observations [3; 2; 1]%Q r Hr)).
Defined.

End more_witnesses.
